(** * LayeredConfig: the resolution engine of [layeredconfig.py]

    A shallow embedding of the class [LayeredConfig] and proofs about
    construction, attribute lookup, attribute assignment and write-back.

    Python objects that are mutated after they are built (the configuration
    sources) live in a store indexed by object identity; the scopes, whose
    fields are fixed once [__init__] returns, are plain values that carry
    their [_parent] link. *)

From Stdlib Require Import String ZArith List Bool Lia.
From stdpp Require Import base decidable option list strings gmap.

Set Warnings "-register-all".

Local Open Scope string_scope.
Local Open Scope list_scope.

(** ** Python-level notions *)

(** Object identity of a configuration source. *)
Definition addr := nat.

Inductive exn : Type :=
  | AttributeError (msg : string).

(** How a call ends: with a value, or with an exception that propagates to
    the caller. *)
Inductive outcome (A : Type) : Type :=
  | Return (a : A)
  | Raise (e : exn).

Arguments Return {A} a.
Arguments Raise {A} e.

(** The exception of lines 236 and 272. *)
Definition no_such_key (name : string) : exn :=
  AttributeError ("Configuration key " ++ name ++ " doesn't exist").

(** [name.startswith("_")] *)
Definition startswith_underscore (name : string) : bool :=
  String.prefix "_" name.

(** ** Configuration sources *)

Section Sources.

(** [V]: configuration values; [K]: the concrete source classes
    ([src.__class__]); [D]: what a source object stores besides the
    attributes that [LayeredConfig] reads and writes itself. *)
Context {V K D : Type}.

(** A source object, with the attributes and methods that
    [layeredconfig.py] uses: [src.__class__], [src.identifier],
    [src.parent], [src.writable], [src.dirty]; [subs] answers both
    [src.subsections()] (its keys, or [None] when the call raises
    [AttributeError], the case of lines 89-92) and [src.subsection(k)]
    (the object stored under [k]). *)
Record source : Type := Source {
  class_ : K;
  identifier : string;
  parent : option addr;
  writable : bool;
  dirty : bool;
  data : D;
  subs : option (list (string * addr))
}.

(** Modelled from the spec: the methods of the source classes, which are
    not part of [layeredconfig.py] (section 4.1, "Source Capability").
    They act on the source's own content: [set] "must not itself alter
    the dirty flag", and everything is "scoped to this source, this level
    of nesting".  [construct cls parent identifier writable cascade] is
    the object built by the call
    [cls(parent=..., identifier=..., writable=..., cascade=...)]. *)
Class ConfigSource : Type := {
  has : D → string → bool;
  typed : D → string → bool;
  get : D → string → V;
  typevalue : D → string → V → V;
  set : string → V → D → D;
  construct : K → option addr → string → bool → bool → source
}.

(** The store: every object identity denotes a source object. *)
Definition store : Type := addr → source.

Definition update (h : store) (a : addr) (f : source → source) : store :=
  fun b => if decide (b = a) then f (h b) else h b.

Definition with_dirty (b : bool) (s : source) : source :=
  {| class_ := class_ s; identifier := identifier s; parent := parent s;
     writable := writable s; dirty := b; data := data s; subs := subs s |}.

Definition with_data (f : D → D) (s : source) : source :=
  {| class_ := class_ s; identifier := identifier s; parent := parent s;
     writable := writable s; dirty := dirty s; data := f (data s);
     subs := subs s |}.

(** Calls that reach the outside of the engine, in the order they are
    made. *)
Inductive call : Type :=
  | CallSet (src : addr) (name : string) (value : V)
  | CallSave (src : addr)
  | ObjectSetattr (name : string) (value : V).

Record state : Type := State {
  heap : store;
  next : addr;
  calls : list call
}.

End Sources.

Arguments source : clear implicits.
Arguments store : clear implicits.
Arguments ConfigSource : clear implicits.
Arguments call : clear implicits.
Arguments state : clear implicits.

(** ** Scopes *)

(** What [__init__] builds: [_sources], [_subsections] (an [OrderedDict],
    here in insertion order), [_cascade], [_writable]. *)
Inductive tree : Type :=
  | Node (sources : list addr) (subsections : list (string * tree))
         (cascade writable : bool).

(** A scope: the node built for it together with [_sectionkey] and
    [_parent], which lines 115-116 set on the child after it is built
    ([None] for the root, lines 75-76). *)
Inductive config : Type :=
  | Config (node : tree) (sectionkey : option string) (parent_scope : option config).

Definition _node (c : config) : tree :=
  match c with Config n _ _ => n end.

Definition _sectionkey (c : config) : option string :=
  match c with Config _ k _ => k end.

Definition _parent (c : config) : option config :=
  match c with Config _ _ p => p end.

Definition _sources (c : config) : list addr :=
  match _node c with Node s _ _ _ => s end.

Definition _cascade (c : config) : bool :=
  match _node c with Node _ _ b _ => b end.

Definition _writable (c : config) : bool :=
  match _node c with Node _ _ _ b => b end.

Fixpoint assoc {A : Type} (k : string) (l : list (string * A)) : option A :=
  match l with
  | [] => None
  | (k', x) :: rest => if String.eqb k k' then Some x else assoc k rest
  end.

(** [self._subsections]: the children, each with its back-reference. *)
Definition _subsections (c : config) : list (string * config) :=
  match _node c with
  | Node _ subsections _ _ =>
      map (fun '(k, n) => (k, Config n (Some k) (Some c))) subsections
  end.

(** The root scope of a freshly built tree. *)
Definition root (n : tree) : config := Config n None None.

(** What an attribute access yields: a configuration value, a child scope,
    or, for a name with a leading underscore, whatever
    [object.__getattribute__(self, name)] does (line 187): the attribute of
    the Python object or Python's own error when there is none. *)
Inductive attr (V : Type) : Type :=
  | Value (v : V)
  | Subsection (c : config)
  | ObjectAttribute (name : string).

Arguments Value {V} v.
Arguments Subsection {V} c.
Arguments ObjectAttribute {V} name.

(** ** [__getattribute__] *)

Section Lookup.

Context {V K D : Type} `{!ConfigSource V K D}.

Abbreviation store := (store K D).

(** Line 264: [source.has(name) or source.typed(name)]. *)
Definition has_or_typed (h : store) (name : string) (src : addr) : bool :=
  has (data (h src)) name || typed (data (h src)) name.

(** Lines 197-205: the [while not done] loop on one source; [fuel] bounds
    the number of objects visited along [.parent]. *)
Fixpoint climb (fuel : nat) (h : store) (cascade : bool) (src : addr)
    (name : string) : option (option addr) :=
  match fuel with
  | O => None
  | S fuel' =>
      if has (data (h src)) name then Some (Some src)
      else if cascade then
        match parent (h src) with
        | Some p => climb fuel' h cascade p name
        | None => Some None
        end
      else Some None
  end.

(** Lines 192-207: the [for source in reversed(self._sources)] loop; the
    argument is the reversed list. *)
Fixpoint value_source (fuel : nat) (h : store) (cascade : bool)
    (srcs : list addr) (name : string) : option (option addr) :=
  match srcs with
  | [] => Some None
  | src :: rest =>
      match climb fuel h cascade src name with
      | None => None
      | Some (Some found) => Some (Some found)
      | Some None => value_source fuel h cascade rest name
      end
  end.

(** Lines 214-227: the search for a type source.  The loop variable
    [typesource] is tested again on line 227; it passes the test exactly
    when the inner loop was left by [break], the [Some] case here. *)
Fixpoint type_source (h : store) (cascade : bool) (this : config)
    (name : string) : option addr :=
  match find (fun ts => typed (data (h ts)) name) (rev (_sources this)) with
  | Some ts => Some ts
  | None =>
      if cascade then
        match _parent this with
        | Some p => type_source h cascade p name
        | None => None
        end
      else None
  end.

(** Lines 210-231: the value returned once the value source is known. *)
Definition resolved (h : store) (self : config) (src : addr)
    (name : string) : V :=
  if typed (data (h src)) name then get (data (h src)) name
  else
    match type_source h (_cascade self) self name with
    | Some ts => typevalue (data (h ts)) name (get (data (h src)) name)
    | None => get (data (h src)) name
    end.

Fixpoint __getattribute__ (fuel : nat) (h : store) (self : config)
    (name : string) {struct self} : option (outcome (attr V)) :=
  if startswith_underscore name then Some (Return (ObjectAttribute name))
  else
    match assoc name (_subsections self) with
    | Some child => Some (Return (Subsection child))
    | None =>
        match value_source fuel h (_cascade self) (rev (_sources self)) name with
        | None => None
        | Some (Some src) => Some (Return (Value (resolved h self src name)))
        | Some None =>
            if _cascade self then
              match _parent self with
              | Some p => __getattribute__ fuel h p name
              | None => Some (Raise (no_such_key name))
              end
            else Some (Raise (no_such_key name))
        end
    end.


End Lookup.

(** ** Calls that change the sources *)

Section Effects.

Context {V K D : Type} `{!ConfigSource V K D}.

Abbreviation state := (state V K D).

(** A computation on the sources: [None] when the fuel given to a loop
    along [.parent] runs out, otherwise how the call ended and the state it
    left behind (an exception keeps what was done before it). *)
Definition M (A : Type) : Type := state → option (outcome A * state).

Definition ret {A : Type} (a : A) : M A :=
  fun st => Some (Return a, st).

Definition raise {A : Type} (e : exn) : M A :=
  fun st => Some (Raise e, st).

Definition bind {A B : Type} (m : M A) (f : A → M B) : M B :=
  fun st =>
    match m st with
    | None => None
    | Some (Return a, st') => f a st'
    | Some (Raise e, st') => Some (Raise e, st')
    end.

Definition out_of_fuel {A : Type} : M A :=
  fun _ => None.

(** Reading attributes of the sources. *)
Definition read {A : Type} (f : store K D → A) : M A :=
  fun st => Some (Return (f (heap st)), st).

(** [src.set(name, value)] *)
Definition call_set (src : addr) (name : string) (value : V) : M unit :=
  fun st =>
    Some (Return tt,
          {| heap := update (heap st) src (with_data (set name value));
             next := next st;
             calls := calls st ++ [CallSet src name value] |}).

(** [src.dirty = True] *)
Definition mark_dirty (src : addr) : M unit :=
  fun st =>
    Some (Return tt,
          {| heap := update (heap st) src (with_dirty true);
             next := next st;
             calls := calls st |}).

(** [src.save()] *)
Definition call_save (src : addr) : M unit :=
  fun st =>
    Some (Return tt,
          {| heap := heap st; next := next st;
             calls := calls st ++ [CallSave src] |}).

(** [object.__setattr__(self, name, value)], line 241: an attribute of the
    Python object, outside the sources. *)
Definition object_setattr (name : string) (value : V) : M unit :=
  fun st =>
    Some (Return tt,
          {| heap := heap st; next := next st;
             calls := calls st ++ [ObjectSetattr name value] |}).

(** Object creation: the new object gets the next free identity. *)
Definition alloc (s : source K D) : M addr :=
  fun st =>
    Some (Return (next st),
          {| heap := update (heap st) (next st) (fun _ => s);
             next := S (next st);
             calls := calls st |}).

End Effects.

Arguments M : clear implicits.

(** [x ← m; f] and [m ;; f] are stdpp's notations for [bind]. *)
#[global] Instance M_ret {V K D : Type} : MRet (M V K D) :=
  fun A => ret.

#[global] Instance M_bind {V K D : Type} : MBind (M V K D) :=
  fun A B f m => bind m f.

(** ** [__setattr__], [write] and [set] *)

Section Assignment.

Context {V K D : Type} `{!ConfigSource V K D}.

Abbreviation M := (M V K D).

(** Lines 256-258: [while writesource.parent]. *)
Fixpoint dirty_parents (fuel : nat) (writesource : addr) : M unit :=
  match fuel with
  | O => out_of_fuel
  | S fuel' =>
      p ← read (fun h => parent (h writesource));
      match p : option addr with
      | Some p => mark_dirty p ;; dirty_parents fuel' p
      | None => ret tt
      end
  end.

(** Lines 248-258: the highest-priority writable source, if there is one,
    takes the value and is marked dirty with its ancestors. *)
Definition write_target (fuel : nat) (self : config) (name : string)
    (value : V) : M unit :=
  w ← read (fun h => find (fun src => writable (h src)) (rev (_sources self)));
  match w with
  | Some writesource =>
      call_set writesource name value ;;
      mark_dirty writesource ;;
      dirty_parents fuel writesource
  | None => ret tt
  end.

Fixpoint __setattr__ (fuel : nat) (self : config) (name : string) (value : V)
    {struct self} : M unit :=
  if startswith_underscore name then object_setattr name value
  else
    write_target fuel self name value ;;
    s ← read (fun h => find (has_or_typed h name) (rev (_sources self)));
    match s with
    | Some src => call_set src name value
    | None =>
        if _cascade self then
          match _parent self with
          | Some p => __setattr__ fuel p name value
          | None => raise (no_such_key name)
          end
        else raise (no_such_key name)
    end.

(** Lines 127-129: [while root._parent]. *)
Fixpoint root_of (conf : config) : config :=
  match _parent conf with
  | Some p => root_of p
  | None => conf
  end.

Fixpoint save_dirty (srcs : list addr) : M unit :=
  match srcs with
  | [] => ret tt
  | src :: rest =>
      b ← read (fun h => writable (h src) && dirty (h src));
      (if b : bool then call_save src else ret tt) ;;
      save_dirty rest
  end.

(** [LayeredConfig.write(config)], lines 121-133. *)
Definition LayeredConfig_write (conf : config) : M unit :=
  save_dirty (_sources (root_of conf)).

Fixpoint set_matching (srcs : list addr) (key : string) (value : V)
    (sourceid : string) : M unit :=
  match srcs with
  | [] => ret tt
  | src :: rest =>
      b ← read (fun h => String.eqb (identifier (h src)) sourceid);
      (if b : bool then call_set src key value else ret tt) ;;
      set_matching rest key value sourceid
  end.

(** [LayeredConfig.set(config, key, value, sourceid)], lines 135-141. *)
Definition LayeredConfig_set (conf : config) (key : string) (value : V)
    (sourceid : string) : M unit :=
  set_matching (_sources conf) key value sourceid.

End Assignment.

(** ** [__init__] *)

Section Construction.

Context {V K D : Type} `{!ConfigSource V K D}.

Abbreviation M := (M V K D).

(** Lines 87-88. *)
Definition add_key (sectionkeys : list string) (k : string) : list string :=
  if bool_decide (k ∈ sectionkeys) then sectionkeys else sectionkeys ++ [k].

(** Lines 83-92, step 1: the names of all subsections, first seen first.  A
    source whose [subsections()] raises [AttributeError] is passed over. *)
Fixpoint find_names (h : store K D) (srcs : list addr)
    (sectionkeys : list string) : list string :=
  match srcs with
  | [] => sectionkeys
  | src :: rest =>
      match subs (h src) with
      | Some l => find_names h rest (fold_left add_key (map fst l) sectionkeys)
      | None => find_names h rest sectionkeys
      end
  end.

(** Lines 106-110: the call [src.__class__(parent=src, ...)]. *)
Definition placeholder (cascade : bool) (src : addr) : M addr :=
  s ← read (fun h => h src);
  alloc (construct (class_ s) (Some src) (identifier s) (writable s) cascade).

(** Lines 97-110, step 2: one entry per source for the subsection [k].
    [src.subsections()] is called again here, outside any [try]. *)
Fixpoint matching (cascade : bool) (k : string) (srcs : list addr)
    : M (list addr) :=
  match srcs with
  | [] => ret []
  | src :: rest =>
      l ← read (fun h => subs (h src));
      match l : option (list (string * addr)) with
      | None => raise (AttributeError "subsections")
      | Some l =>
          sub ← match assoc k l with
                | Some sub => ret sub
                | None => placeholder cascade src
                end;
          s ← matching cascade k rest;
          ret (sub :: s)
      end
  end.

(** Lines 95-117: the loop [for k in sectionkeys]; [build] is the recursive
    call of the constructor on line 112. *)
Fixpoint build_subsections (build : list addr → M tree)
    (cascade : bool) (sources : list addr) (sectionkeys : list string)
    : M (list (string * tree)) :=
  match sectionkeys with
  | [] => ret []
  | k :: rest =>
      s ← matching cascade k sources;
      c ← build s;
      subsections ← build_subsections build cascade sources rest;
      ret ((k, c) :: subsections)
  end.

(** The constructor, lines 71-117, called with the sources and the keyword
    arguments [cascade] (default [False]) and [writable] (default [True]);
    [fuel] bounds the depth of nesting. *)
Fixpoint __init__ (fuel : nat) (cascade writable : bool) (sources : list addr)
    : M tree :=
  match fuel with
  | O => out_of_fuel
  | S fuel' =>
      sectionkeys ← read (fun h => find_names h sources []);
      subsections ←
        build_subsections (__init__ fuel' cascade writable) cascade sources sectionkeys;
      ret (Node sources subsections cascade writable)
  end.

End Construction.

(** ** A concrete kind of source *)

Module DictSource.

Inductive value : Type :=
  | Str (s : string)
  | Int (z : Z).

Inductive kind : Type :=
  | Defaults
  | INIFile
  | Commandline.

(** Modelled from the spec: a source backed by a dictionary, standing for
    the source classes that are not part of [layeredconfig.py].  [items]
    holds the raw values of this level, [ints] the keys that carry the type
    information "this key is an integer" (section 4.3, rationale). *)
Record dict : Type := Dict {
  items : gmap string value;
  ints : gset string
}.

Definition empty : dict := {| items := ∅; ints := ∅ |}.

Fixpoint digits (s : string) (acc : Z) : option Z :=
  match s with
  | EmptyString => Some acc
  | String c s' =>
      let n := Z.of_nat (Ascii.nat_of_ascii c) in
      if ((48 <=? n) && (n <=? 57))%Z then digits s' (10 * acc + (n - 48))%Z
      else None
  end.

(** The coercion to an integer; a string that is not a number is left as
    it is. *)
Definition to_int (v : value) : value :=
  match v with
  | Int z => Int z
  | Str s => match digits s 0 with Some z => Int z | None => Str s end
  end.

(** Modelled from the spec: section 4.1, [hasKey], [isTyped], [get],
    [typedValue], [set] ("store value at this level") and the construction
    of an empty placeholder. *)
#[global] Instance dict_source : ConfigSource value kind dict := {|
  has d name := bool_decide (is_Some (items d !! name));
  typed d name := bool_decide (name ∈ ints d);
  get d name := default (Str "") (items d !! name);
  typevalue d name v := if bool_decide (name ∈ ints d) then to_int v else v;
  set name v d := {| items := <[name := v]> (items d); ints := ints d |};
  construct cls parent identifier writable cascade :=
    {| class_ := cls; identifier := identifier; parent := parent;
       writable := writable; dirty := false; data := empty;
       subs := Some [] |}
|}.

(** A source object with the given content. *)
Definition new (cls : kind) (identifier : string) (parent : option addr)
    (writable : bool) (its : list (string * value)) (typed_keys : list string)
    (subsections : option (list (string * addr))) : source kind dict :=
  {| class_ := cls; identifier := identifier; parent := parent;
     writable := writable; dirty := false;
     data := {| items := list_to_map its; ints := list_to_set typed_keys |};
     subs := subsections |}.

(** The store that holds the given objects at the identities 0, 1, ... *)
Definition objects (l : list (source kind dict)) : store kind dict :=
  fun a => nth a l (new Defaults "" None false [] [] None).

Definition initial (l : list (source kind dict)) : state value kind dict :=
  {| heap := objects l; next := length l; calls := [] |}.

End DictSource.

(** ** Concrete scopes *)

Module Scenes.

Import DictSource.

(** The example of the docstring of [__init__], lines 40-46: defaults, an
    INI file (the writable source) and the command line. *)
Definition docstring : state value kind dict :=
  initial
    [ new Defaults "defaults" None false
        [("parameter", Str "foo"); ("other", Str "default")] [] (Some []);
      new INIFile "inifile" None true [("parameter", Str "bar")] [] (Some []);
      new Commandline "commandline" None false
        [("parameter", Str "baz")] [] (Some []) ].

Definition docstring_conf : config := root (Node [0; 1; 2] [] false true).

(** The same objects without the file: no source is writable. *)
Definition read_only_conf : config := root (Node [0; 2] [] false true).

(** Defaults that declare [k] an integer, and a command line that gives it
    as the string "7". *)
Definition typed_default : state value kind dict :=
  initial
    [ new Defaults "defaults" None false [("k", Int 5)] ["k"] (Some []);
      new Commandline "commandline" None false [("k", Str "7")] [] (Some []) ].

Definition typed_default_conf : config := root (Node [0; 1] [] false true).

(** Read-only defaults with a subsection [mail]; the object of the
    subsection has no [parent]. *)
Definition nested_defaults : state value kind dict :=
  initial
    [ new Defaults "defaults" None false [("home", Str "/tmp")] []
        (Some [("mail", 1)]);
      new Defaults "defaults" None false [("port", Str "25")] [] (Some []) ].

Definition nested_defaults_root : config :=
  root (Node [0] [("mail", Node [1] [] true true)] true true).

Definition nested_defaults_mail : config :=
  Config (Node [1] [] true true) (Some "mail") (Some nested_defaults_root).

(** A writable file with a section [mail]; the object of the section has
    the file object as [parent]. *)
Definition nested_file : state value kind dict :=
  initial
    [ new INIFile "inifile" None true [("home", Str "/tmp")] []
        (Some [("mail", 1)]);
      new INIFile "inifile" (Some 0) true [("port", Str "25")] [] (Some []) ].

Definition nested_file_root : config :=
  root (Node [0] [("mail", Node [1] [] true true)] true true).

Definition nested_file_mail : config :=
  Config (Node [1] [] true true) (Some "mail") (Some nested_file_root).

(** A file that has both a key [mail] and a section [mail]. *)
Definition shadowing : state value kind dict :=
  initial
    [ new INIFile "inifile" None true [("mail", Str "on")] []
        (Some [("mail", 1)]);
      new INIFile "inifile" (Some 0) true [("port", Str "25")] [] (Some []) ].

Definition shadowing_mail : tree := Node [1] [] false true.

Definition shadowing_conf : config :=
  root (Node [0] [("mail", shadowing_mail)] false true).

(** Defaults with the key [spam] and a subsection [mail], which has a
    subsection of its own named [spam]; the objects of the subsections have
    no [parent]. *)
Definition nested_sections : state value kind dict :=
  initial
    [ new Defaults "defaults" None false [("spam", Str "eggs")] []
        (Some [("mail", 1)]);
      new Defaults "defaults" None false [] [] (Some [("spam", 2)]);
      new Defaults "defaults" None false [("level", Str "3")] [] (Some []) ].

Definition nested_sections_spam : tree := Node [2] [] true true.

Definition nested_sections_root : config :=
  root (Node [0] [("mail", Node [1] [("spam", nested_sections_spam)] true true)]
          true true).

Definition nested_sections_mail : config :=
  Config (Node [1] [("spam", nested_sections_spam)] true true) (Some "mail")
    (Some nested_sections_root).

(** Defaults with a subsection [a], and a command line whose
    [subsections()] raises [AttributeError]. *)
Definition unsupported : state value kind dict :=
  initial
    [ new Defaults "defaults" None false [] [] (Some [("a", 2)]);
      new Commandline "commandline" None false [] [] None;
      new Defaults "defaults" (Some 0) false [("x", Str "1")] [] (Some []) ].

(** The example of section 8, "Subsection union": S1 has the subsections
    [a] and [b], S2 has [b] and [c]. *)
Definition union : state value kind dict :=
  initial
    [ new Defaults "defaults" None false [] [] (Some [("a", 2); ("b", 3)]);
      new INIFile "inifile" None true [] [] (Some [("b", 4); ("c", 5)]);
      new Defaults "defaults" (Some 0) false [] [] (Some []);
      new Defaults "defaults" (Some 0) false [] [] (Some []);
      new INIFile "inifile" (Some 1) true [] [] (Some []);
      new INIFile "inifile" (Some 1) true [] [] (Some []) ].

End Scenes.

(** ** Notions used to state the properties *)

Section Notions.

Context {V K D : Type} `{!ConfigSource V K D}.

(** The objects reached from [src] along [.parent], nearest first. *)
Inductive ancestors (h : store K D) : addr → list addr → Prop :=
  | ancestors_nil src :
      parent (h src) = None → ancestors h src []
  | ancestors_cons src p anc :
      parent (h src) = Some p → ancestors h p anc →
      ancestors h src (p :: anc).

(** [x] is the entry of highest priority in [l] that satisfies [f]: the
    last one, since priority increases with the index. *)
Definition highest {A : Type} (f : A → bool) (l : list A) (x : A) : Prop :=
  ∃ lower higher,
    l = lower ++ x :: higher ∧ f x = true ∧ Forall (fun y => f y = false) higher.

(** The type source as section 4.3, step 5 words it: the highest-priority
    source of the current scope that is typed for the key; failing that,
    with [cascade], the type source of the parent scope; otherwise none. *)
Inductive type_source_spec (h : store K D) (name : string) (cascade : bool)
    : config → option addr → Prop :=
  | type_source_here this ts :
      highest (fun src => typed (data (h src)) name) (_sources this) ts →
      type_source_spec h name cascade this (Some ts)
  | type_source_parent this p r :
      Forall (fun src => typed (data (h src)) name = false) (_sources this) →
      cascade = true → _parent this = Some p →
      type_source_spec h name cascade p r →
      type_source_spec h name cascade this r
  | type_source_none this :
      Forall (fun src => typed (data (h src)) name = false) (_sources this) →
      cascade = false ∨ _parent this = None →
      type_source_spec h name cascade this None.

(** The lookup of [name] on [self] finds the value source [src]: it gets
    to the scan of lines 192-207 (the name is not answered by lines 186-190)
    and the scan stops at [src]. *)
Definition value_source_found (fuel : nat) (h : store K D) (self : config)
    (name : string) (src : addr) : Prop :=
  startswith_underscore name = false
  ∧ assoc name (_subsections self) = None
  ∧ value_source fuel h (_cascade self) (rev (_sources self)) name
    = Some (Some src).

(** The key is neither on [src] nor on any object up its [.parent] chain,
    which is shorter than [fuel]. *)
Definition absent (fuel : nat) (h : store K D) (name : string) (src : addr) : Prop :=
  ∃ anc, ancestors h src anc ∧ length anc < fuel ∧
         Forall (fun a => has (data (h a)) name = false) (src :: anc).

(** [set] on a source makes [has] true for the key, as section 4.1 words
    the two operations: "store value at this level", "true if this source
    carries a raw value for name at this level". *)
Definition set_stores : Prop :=
  ∀ (d : D) (k : string) (v : V), has (set k v d) k = true.

(** The object at [a] once the write target [W] with ancestors [anc] has
    been served (lines 254-258). *)
Definition written (W : addr) (anc : list addr) (k : string) (v : V)
    (a : addr) (s : source K D) : source K D :=
  let s1 := if decide (a = W) then with_data (set k v) s else s in
  if decide (a ∈ W :: anc) then with_dirty true s1 else s1.

(** [st'] is [st] with more objects: the objects of [st] are as they
    were and no outside call was made. *)
Definition extends (st st' : state V K D) : Prop :=
  (next st <= next st')%nat
  ∧ (∀ a, a < next st → heap st' a = heap st a)
  ∧ calls st' = calls st.

(** What section 4.2 asks of the entry [sub] that the child scope for [k]
    gets for the source [src]: the subsection of [src] named [k] when there
    is one, otherwise an object created during the construction by
    [src]'s class with [src] as parent, its identifier, its writable flag
    and the [cascade] flag of the scope. *)
Definition placed (st st' : state V K D) (cascade : bool) (k : string)
    (src sub : addr) : Prop :=
  ∃ l, subs (heap st src) = Some l ∧
    match assoc k l with
    | Some own => sub = own
    | None =>
        (next st <= sub < next st')%nat
        ∧ heap st' sub =
            construct (class_ (heap st src)) (Some src)
              (identifier (heap st src)) (writable (heap st src)) cascade
    end.

(** The call returns, and leaves a state that satisfies [P]. *)
Definition returns_with {A : Type} (r : option (outcome A * state V K D))
    (P : state V K D → Prop) : Prop :=
  match r with
  | Some (Return _, st') => P st'
  | _ => False
  end.

(** The sources that [write] saves. *)
Definition to_save (st : state V K D) (srcs : list addr) : list addr :=
  List.filter (fun src => writable (heap st src) && dirty (heap st src)) srcs.

(** The sources that [set] reaches. *)
Definition identified (st : state V K D) (sourceid : string)
    (srcs : list addr) : list addr :=
  List.filter (fun src => String.eqb (identifier (heap st src)) sourceid) srcs.

(** [src.subsections()], with a failing call read as "no subsections". *)
Definition names_of (h : store K D) (src : addr) : list string :=
  match subs (h src) with
  | Some l => map fst l
  | None => []
  end.

End Notions.

(** The union of the names in first-seen order, as section 4.2 words it:
    each name is kept where it first occurs. *)
Fixpoint first_seen (names : list string) : list string :=
  match names with
  | [] => []
  | k :: rest => k :: filter (fun k' => k' ≠ k) (first_seen rest)
  end.

(** The same scope built with another [cascade] flag. *)
Definition with_cascade (b : bool) (c : config) : config :=
  match c with
  | Config (Node s subsections _ w) k p => Config (Node s subsections b w) k p
  end.

(** Induction along [_parent]. *)
Fixpoint config_parent_ind (P : config → Prop)
    (Hroot : ∀ n k, P (Config n k None))
    (Hchild : ∀ n k p, P p → P (Config n k (Some p)))
    (c : config) : P c :=
  match c with
  | Config n k None => Hroot n k
  | Config n k (Some p) => Hchild n k p (config_parent_ind P Hroot Hchild p)
  end.

(** [r] is reached from [c] by following [_parent] zero or more times. *)
Inductive climbs_to : config → config → Prop :=
  | climbs_here c : climbs_to c c
  | climbs_up c p r : _parent c = Some p → climbs_to p r → climbs_to c r.

(** ** [__iter__] *)

Section Iteration.

Context {K D : Type}.

(** Modelled from the spec: the method [keys()] of the source classes,
    which are not part of [layeredconfig.py] (section 2: a source can
    "enumerate known keys").  It yields the keys of this source, this level
    of nesting, in the source's own order. *)
Class SourceKeys : Type :=
  keys : D → list string.

Context `{!SourceKeys}.

(** Line 171 chained by line 179: the keys of the sources, in the order of
    [self._sources]. *)
Definition source_keys (h : store K D) (srcs : list addr) : list string :=
  concat (map (fun x => keys (data (h x))) srcs).

(** The scopes that lines 174-177 append to [iterables]. *)
Fixpoint scopes_above (c : config) : list config :=
  match _parent c with
  | Some p => p :: scopes_above p
  | None => []
  end.

(** Lines 168-182.  Iterating over a parent scope runs the parent's own
    [__iter__], so the first component is what iterating over [self]
    yields, and the second is what iterating over [self], then over its
    parent, then over the parent's parent, ... yields in a row: the chain
    that a child scope with [cascade] appends to the keys of its sources.
    The set [l] keeps each key where it first occurs. *)
Fixpoint iterate (h : store K D) (self : config) : list string * list string :=
  let above :=
    match _parent self with
    | Some p => snd (iterate h p)
    | None => []
    end in
  let yielded :=
    first_seen (source_keys h (_sources self)
                ++ if _cascade self then above else []) in
  (yielded, yielded ++ above).

Definition __iter__ (h : store K D) (self : config) : list string :=
  fst (iterate h self).

End Iteration.

Arguments SourceKeys : clear implicits.

Module DictKeys.

Import DictSource.

(** Modelled from the spec: the keys of a dictionary-backed source are the
    keys of its items. *)
#[global] Instance dict_keys : SourceKeys dict :=
  fun d => map fst (map_to_list (items d)).

End DictKeys.

(** ** More notions used to state properties *)

Section MoreNotions.

Context {V K D : Type} `{!ConfigSource V K D} `{!SourceKeys D}.

(** A key that [keys()] lists is a key that [has] reports: both speak of
    the raw values of this level (section 4.1). *)
Definition keys_listed : Prop :=
  ∀ (d : D) (k : string), k ∈ keys d → has d k = true.


(** The [.parent] chain of [src] ends, within [fuel] objects. *)
Definition bounded (fuel : nat) (h : store K D) (src : addr) : Prop :=
  ∃ anc, ancestors h src anc ∧ length anc < fuel.

(** The object [s'] is [s] up to its content and its dirty flag, and the
    flag has not been cleared. *)
Definition kept (s s' : source K D) : Prop :=
  class_ s' = class_ s ∧ identifier s' = identifier s ∧ parent s' = parent s
  ∧ writable s' = writable s ∧ subs s' = subs s
  ∧ (dirty s = true → dirty s' = true).

(** What an assignment of [v] to [name] may do to the state: every object
    is kept, no object is created, and the only calls added are
    [set(name, v)] on sources and [object.__setattr__(self, name, v)]. *)
Definition assigned (name : string) (v : V) (st st' : state V K D) : Prop :=
  next st' = next st
  ∧ (∀ a, kept (heap st a) (heap st' a))
  ∧ ∃ added, calls st' = calls st ++ added
      ∧ Forall (fun c => (∃ src, c = CallSet src name v)
                         ∨ c = ObjectSetattr name v) added.

End MoreNotions.

(** Every scope of the tree has the flags [cascade] and [writable], [n]
    sources, and subsections with distinct names. *)
Inductive uniform (cascade writable : bool) (n : nat) : tree → Prop :=
  | uniform_node sources subsections :
      length sources = n →
      NoDup (map fst subsections) →
      Forall (fun kc => uniform cascade writable n (snd kc)) subsections →
      uniform cascade writable n (Node sources subsections cascade writable).

(** * Properties *)

Section Lists.

Context {A : Type}.

Lemma find_app_none (f : A → bool) (l1 l2 : list A) :
  Forall (fun y => f y = false) l1 → find f (l1 ++ l2) = find f l2.
Proof.
  induction 1 as [|y l1 Hy _ IH]; [done|]. simpl. by rewrite Hy.
Qed.

Lemma find_rev_highest (f : A → bool) (l : list A) (x : A) :
  highest f l x → find f (rev l) = Some x.
Proof.
  intros (lower & higher & -> & Hx & Hhigher).
  rewrite rev_app_distr. simpl. rewrite <- app_assoc.
  rewrite find_app_none by by apply Forall_rev.
  simpl. by rewrite Hx.
Qed.

Lemma find_rev_none (f : A → bool) (l : list A) :
  Forall (fun y => f y = false) l → find f (rev l) = None.
Proof.
  intros Hl. rewrite <- (app_nil_r (rev l)).
  rewrite find_app_none by by apply Forall_rev. done.
Qed.

Lemma find_rev_inv (f : A → bool) (l : list A) :
  match find f (rev l) with
  | Some x => highest f l x
  | None => Forall (fun y => f y = false) l
  end.
Proof.
  induction l as [|y l IH] using rev_ind; [by constructor|].
  rewrite rev_app_distr. simpl. destruct (f y) eqn:Hy.
  - exists l, []. by repeat split.
  - destruct (find f (rev l)) as [x|].
    + destruct IH as (lower & higher & -> & Hx & Hhigher).
      exists lower, (higher ++ [y]). rewrite <- app_assoc. repeat split; [done|].
      apply Forall_app. split; [done|]. by constructor.
    + apply Forall_app. split; [done|]. by constructor.
Qed.

End Lists.

(** ** Attribute lookup *)

Section LookupProperties.

Context {V K D : Type} `{!ConfigSource V K D}.

Implicit Types (h : store K D) (self this : config) (name k : string).

Lemma climb_found fuel h cascade src k :
  has (data (h src)) k = true →
  climb (S fuel) h cascade src k = Some (Some src).
Proof. intros Hk. simpl. by rewrite Hk. Qed.

Lemma climb_absent fuel h cascade src k :
  absent fuel h k src → climb fuel h cascade src k = Some None.
Proof.
  intros (anc & Hanc & Hlen & Hno). revert fuel Hlen Hno.
  induction Hanc as [src Hp|src p anc Hp _ IH]; intros fuel Hlen Hno.
  - destruct fuel as [|fuel]; [simpl in Hlen; lia|]. simpl.
    apply Forall_cons in Hno as [-> _]. rewrite Hp. by destruct cascade.
  - destruct fuel as [|fuel]; [simpl in Hlen; lia|]. simpl.
    apply Forall_cons in Hno as [-> Hno]. rewrite Hp.
    destruct cascade; [|done]. apply IH; [simpl in Hlen; lia|done].
Qed.

Lemma value_source_absent fuel h cascade srcs k :
  Forall (absent fuel h k) srcs →
  value_source fuel h cascade srcs k = Some None.
Proof.
  induction 1 as [|src srcs Hsrc _ IH]; [done|].
  simpl. by rewrite (climb_absent _ _ _ _ _ Hsrc).
Qed.

Lemma type_source_meets_spec h cascade this k :
  type_source_spec h k cascade this (type_source h cascade this k).
Proof.
  induction this as [n sk|n sk p IH] using config_parent_ind.
  - simpl.
    pose proof (find_rev_inv (fun ts => typed (data (h ts)) k)
                  (_sources (Config n sk None))) as Hfind.
    destruct (find _ _) as [ts|]; [by apply type_source_here|].
    destruct cascade; apply type_source_none; auto.
  - simpl.
    pose proof (find_rev_inv (fun ts => typed (data (h ts)) k)
                  (_sources (Config n sk (Some p)))) as Hfind.
    destruct (find _ _) as [ts|]; [by apply type_source_here|].
    destruct cascade.
    + by eapply type_source_parent.
    + apply type_source_none; auto.
Qed.

(** The relation of section 4.3 determines the type source: it is the one
    the code computes. *)
Lemma type_source_spec_unique h cascade this k r :
  type_source_spec h k cascade this r → r = type_source h cascade this k.
Proof.
  induction 1 as [this ts Hts|this p r Hnone -> Hp _ IH|this Hnone Hstop];
    destruct this as [n sk q]; cbn [type_source].
  - by rewrite (find_rev_highest _ _ _ Hts).
  - rewrite find_rev_none by done. simpl in Hp. by subst q.
  - rewrite find_rev_none by done.
    destruct Hstop as [->|Hq]; [done|]. simpl in Hq. subst q.
    by destruct cascade.
Qed.

Lemma assoc_with_cascade b self k :
  assoc k (_subsections self) = None →
  assoc k (_subsections (with_cascade b self)) = None.
Proof.
  destruct self as [[s subsections c w] sk p]. unfold _subsections. simpl.
  generalize (Config (Node s subsections c w) sk p) as c1.
  generalize (Config (Node s subsections b w) sk p) as c2.
  intros c2 c1. induction subsections as [|[k' n] l IH]; [done|]. simpl.
  destruct (String.eqb k k'); [done|]. exact IH.
Qed.

(** Lines 186-190 answer two kinds of names before any source is asked. *)
Lemma getattribute_underscore fuel h self name :
  startswith_underscore name = true →
  __getattribute__ fuel h self name = Some (Return (ObjectAttribute name)).
Proof. intros Hname. destruct self. cbn [__getattribute__]. by rewrite Hname. Qed.

Lemma getattribute_subsection fuel h self name child :
  startswith_underscore name = false →
  assoc name (_subsections self) = Some child →
  __getattribute__ fuel h self name = Some (Return (Subsection child)).
Proof.
  intros Hname Hsub. destruct self. cbn [__getattribute__]. by rewrite Hname, Hsub.
Qed.

(** C1, amended: in a scope whose sources S1..Sn (priority increasing with
    the index) all report [has(k)], for a key [k] that does not start with
    an underscore and is not the name of a subsection of the scope, the scan
    over the reversed source list stops at Sn, the first source it tests,
    and the lookup of [k] returns the value resolved from Sn. *)
Theorem priority_ordering fuel h self k lower Sn :
  startswith_underscore k = false →
  assoc k (_subsections self) = None →
  _sources self = lower ++ [Sn] →
  Forall (fun src => has (data (h src)) k = true) (_sources self) →
  value_source (S fuel) h (_cascade self) (rev (_sources self)) k = Some (Some Sn)
  ∧ __getattribute__ (S fuel) h self k = Some (Return (Value (resolved h self Sn k))).
Proof.
  intros Hname Hsub Hsrcs Hall.
  assert (value_source (S fuel) h (_cascade self) (rev (_sources self)) k
          = Some (Some Sn)) as Hscan.
  { rewrite Hsrcs in Hall |- *. rewrite rev_app_distr.
    apply Forall_app in Hall as [_ HSn]. apply Forall_cons in HSn as [HSn _].
    cbn [rev app value_source]. by rewrite climb_found. }
  split; [done|].
  destruct self as [n sk p]. cbn [__getattribute__].
  by rewrite Hname, Hsub, Hscan.
Qed.

(** C2: when the value source found for [k] is not typed for [k], the
    lookup searches a type source from the current scope upwards (the
    highest-priority typed source of a scope, the parent scope only with
    [cascade]); with a type source it returns that source's [typevalue] of
    the value source's raw value, without one the raw value itself.  In
    particular a source typed for [k] with only untyped sources above it
    types the raw value held by a higher-priority source. *)
Theorem typed_value_recovery fuel h self k src :
  value_source_found fuel h self k src →
  typed (data (h src)) k = false →
  (∃ ts,
      type_source_spec h k (_cascade self) self ts ∧
      __getattribute__ fuel h self k =
        Some (Return (Value
          match ts with
          | Some t => typevalue (data (h t)) k (get (data (h src)) k)
          | None => get (data (h src)) k
          end)))
  ∧ (∀ low, highest (fun s => typed (data (h s)) k) (_sources self) low →
       __getattribute__ fuel h self k =
         Some (Return (Value (typevalue (data (h low)) k (get (data (h src)) k))))).
Proof.
  intros (Hname & Hsub & Hscan) Huntyped.
  assert (__getattribute__ fuel h self k =
            Some (Return (Value
              match type_source h (_cascade self) self k with
              | Some t => typevalue (data (h t)) k (get (data (h src)) k)
              | None => get (data (h src)) k
              end))) as Hget.
  { destruct self as [n sk p]. cbn [__getattribute__].
    rewrite Hname, Hsub, Hscan. unfold resolved. by rewrite Huntyped. }
  split.
  - exists (type_source h (_cascade self) self k). split; [|done].
    apply type_source_meets_spec.
  - intros low Hlow. rewrite Hget.
    apply find_rev_highest in Hlow.
    destruct self as [n sk p]. cbn [type_source]. by rewrite Hlow.
Qed.

(** C3, amended: in a scope that has a parent scope, for a key [k] that
    does not start with an underscore, is not the name of a subsection of
    the scope, and is found on no local source nor up any local source's own
    parent chain, the lookup of [k] with [cascade] returns what the lookup
    of [k] on the parent scope returns; the same scope built without
    [cascade] raises [AttributeError]. *)
Theorem cascade_fallback fuel h self p k :
  startswith_underscore k = false →
  assoc k (_subsections self) = None →
  _parent self = Some p →
  Forall (absent fuel h k) (_sources self) →
  (_cascade self = true →
     __getattribute__ fuel h self k = __getattribute__ fuel h p k)
  ∧ __getattribute__ fuel h (with_cascade false self) k = Some (Raise (no_such_key k)).
Proof.
  intros Hname Hsub Hp Habsent. split.
  - intros Hcascade. destruct self as [n sk q]. simpl in Hp. subst q.
    cbn [__getattribute__]. rewrite Hname, Hsub.
    rewrite value_source_absent by by apply Forall_rev.
    by rewrite Hcascade.
  - pose proof (assoc_with_cascade false _ _ Hsub) as Hsub'.
    destruct self as [[s subsections c w] sk q]. simpl in Hp. subst q.
    cbn [with_cascade] in Hsub' |- *. cbn [__getattribute__].
    rewrite Hname, Hsub'.
    unfold _sources, _cascade in *. cbn [_node] in *.
    by rewrite value_source_absent by by apply Forall_rev.
Qed.

End LookupProperties.

(** ** Attribute assignment *)

Section AssignmentProperties.

Context {V K D : Type} `{!ConfigSource V K D}.

Implicit Types (h : store K D) (st : state V K D) (self : config) (k : string)
  (v : V).

(** Closes a case where [Hc] says whether an entry is in [x :: l] against
    what is known of the entry. *)
Ltac absurd_cons Hc :=
  exfalso;
  first [ by (apply Hc, elem_of_cons; left)
        | by (apply Hc, elem_of_cons; right)
        | by (apply elem_of_cons in Hc as [?|?]) ].

Lemma ancestors_ext h h' src anc :
  (∀ a, parent (h' a) = parent (h a)) →
  ancestors h src anc → ancestors h' src anc.
Proof.
  intros Hsame. induction 1 as [src Hp|src p anc Hp _ IH].
  - apply ancestors_nil. by rewrite Hsame.
  - apply ancestors_cons; [by rewrite Hsame|done].
Qed.

Lemma dirty_parents_spec anc : ∀ fuel src st,
  ancestors (heap st) src anc → length anc < fuel →
  ∃ st', dirty_parents fuel src st = Some (Return tt, st')
    ∧ calls st' = calls st ∧ next st' = next st
    ∧ ∀ a, heap st' a =
           if decide (a ∈ anc) then with_dirty true (heap st a) else heap st a.
Proof.
  induction anc as [|p anc IH]; intros fuel src st Hanc Hlen;
    (destruct fuel as [|fuel]; [simpl in Hlen; lia|]);
    inversion Hanc as [? Hparent|? ? ? Hparent Hrest]; subst.
  - exists st. cbn. unfold mbind, M_bind, bind, read. rewrite Hparent. cbn.
    by repeat split.
  - set (st1 := {| heap := update (heap st) p (with_dirty true);
                   next := next st; calls := calls st |}).
    destruct (IH fuel p st1) as (st' & Hrun & Hcalls & Hnext & Hheap).
    { eapply ancestors_ext; [|eassumption]. intros a. cbn. unfold update.
      by case_decide. }
    { simpl in Hlen. lia. }
    exists st'. split; [|split; [done|split; [done|]]].
    + cbn. unfold mbind, M_bind, bind, read, mark_dirty. rewrite Hparent.
      exact Hrun.
    + intros a. rewrite Hheap. cbn. unfold update.
      destruct (decide (a = p)) as [->|Hne], (decide (_ ∈ anc)) as [Ha|Ha],
        (decide (_ ∈ p :: anc)) as [Hc|Hc]; try done; absurd_cons Hc.
Qed.

Lemma write_target_none fuel self k v st :
  Forall (fun src => writable (heap st src) = false) (_sources self) →
  write_target fuel self k v st = Some (Return tt, st).
Proof.
  intros Hnone. unfold write_target, mbind, M_bind, bind, read.
  by rewrite find_rev_none.
Qed.

Lemma write_target_some fuel self k v st W anc :
  highest (fun src => writable (heap st src)) (_sources self) W →
  ancestors (heap st) W anc → length anc < fuel →
  ∃ st', write_target fuel self k v st = Some (Return tt, st')
    ∧ calls st' = calls st ++ [CallSet W k v] ∧ next st' = next st
    ∧ ∀ a, heap st' a = written W anc k v a (heap st a).
Proof.
  intros HW Hanc Hlen.
  set (st1 := {| heap := update (update (heap st) W (with_data (set k v)))
                                W (with_dirty true);
                 next := next st; calls := calls st ++ [CallSet W k v] |}).
  destruct (dirty_parents_spec anc fuel W st1)
    as (st' & Hrun & Hcalls & Hnext & Hheap); [|done|].
  { eapply ancestors_ext; [|eassumption]. intros a. cbn. unfold update.
    by repeat case_decide. }
  exists st'. split; [|split; [done|split; [done|]]].
  - unfold write_target, mbind, M_bind, bind, read.
    rewrite (find_rev_highest _ _ _ HW). exact Hrun.
  - intros a. rewrite Hheap. cbn. unfold written, update.
    destruct (decide (a = W)) as [->|Hne], (decide (_ ∈ anc)) as [Ha|Ha],
      (decide (_ ∈ W :: anc)) as [Hc|Hc]; try done; absurd_cons Hc.
Qed.

Lemma written_dirty W anc k v a (s : source K D) :
  dirty (written W anc k v a s) = if decide (a ∈ W :: anc) then true else dirty s.
Proof. unfold written. by repeat case_decide. Qed.

Lemma written_data W anc k v a (s : source K D) :
  data (written W anc k v a s) = if decide (a = W) then set k v (data s) else data s.
Proof. unfold written. by repeat case_decide. Qed.

(** Lines 240-242: a name with a leading underscore is an attribute of the
    Python object; no source is asked. *)
Lemma setattr_underscore fuel self name v st :
  startswith_underscore name = true →
  __setattr__ fuel self name v st = object_setattr name v st.
Proof. intros Hname. destruct self. cbn [__setattr__]. by rewrite Hname. Qed.

(** Lines 260-272 once the write target has been served. *)
Lemma setattr_unfold fuel self k v st :
  startswith_underscore k = false →
  __setattr__ fuel self k v st =
    match write_target fuel self k v st with
    | None => None
    | Some (Raise e, st1) => Some (Raise e, st1)
    | Some (Return _, st1) =>
        match find (has_or_typed (heap st1) k) (rev (_sources self)) with
        | Some src => call_set src k v st1
        | None =>
            if _cascade self then
              match _parent self with
              | Some p => __setattr__ fuel p k v st1
              | None => Some (Raise (no_such_key k), st1)
              end
            else Some (Raise (no_such_key k), st1)
        end
    end.
Proof.
  intros Hname. destruct self as [n sk p]. cbn [__setattr__]. rewrite Hname.
  unfold mbind, M_bind, bind at 1.
  destruct (write_target _ _ _ _ _) as [[[[]|e] st1]|]; [|done|done].
  unfold bind, read, has_or_typed. cbn.
  destruct (find _ _); [done|].
  destruct (_cascade _); [|done]. by destruct p.
Qed.

Lemma has_or_typed_written h h' W anc k v a :
  (∀ b, h' b = written W anc k v b (h b)) → a ≠ W →
  has_or_typed h' k a = has_or_typed h k a.
Proof.
  intros Hh' Hne. unfold has_or_typed. rewrite Hh', written_data.
  by rewrite decide_False.
Qed.

Lemma not_writable_ne h W l :
  writable (h W) = true → Forall (fun a => writable (h a) = false) l →
  Forall (fun a => a ≠ W) l.
Proof.
  intros HW Hl. eapply Forall_impl; [exact Hl|].
  intros a Ha ->. congruence.
Qed.

(** When the sources above the write target [W] carry neither the key nor
    its type, and [set] stores the key, the second scan (lines 262-266)
    stops at [W]: [W] is set twice and nothing else is called. *)
Lemma setattr_write_target_on_top fuel self k v st lower W higher anc :
  set_stores →
  startswith_underscore k = false →
  _sources self = lower ++ W :: higher →
  writable (heap st W) = true →
  Forall (fun a => writable (heap st a) = false) higher →
  Forall (fun a => has_or_typed (heap st) k a = false) higher →
  ancestors (heap st) W anc → length anc < fuel →
  ∃ st', __setattr__ fuel self k v st = Some (Return tt, st')
    ∧ calls st' = calls st ++ [CallSet W k v; CallSet W k v]
    ∧ (∀ a, dirty (heap st' a) =
            if decide (a ∈ W :: anc) then true else dirty (heap st a))
    ∧ (∀ a, data (heap st' a) =
            if decide (a = W) then set k v (set k v (data (heap st a)))
            else data (heap st a)).
Proof.
  intros Hstores Hname Hsrcs HW Hnw Hnone Hanc Hlen.
  destruct (write_target_some fuel self k v st W anc)
    as (st1 & Hrun & Hcalls & _ & Hheap); [|done|done|].
  { exists lower, higher. by repeat split. }
  pose proof (not_writable_ne _ _ _ HW Hnw) as Hne.
  rewrite setattr_unfold, Hrun by done.
  rewrite (find_rev_highest _ _ W).
  - eexists. split; [reflexivity|]. cbn. rewrite Hcalls, <- app_assoc.
    split; [done|]. split; intros a; unfold update.
    + case_decide; cbn; by rewrite Hheap, written_dirty.
    + case_decide as Ha; cbn; rewrite Hheap, written_data.
      * by rewrite decide_True.
      * by rewrite decide_False.
  - exists lower, higher. split; [done|]. split.
    + unfold has_or_typed. rewrite Hheap, written_data, decide_True by done.
      by rewrite Hstores.
    + rewrite Forall_forall in Hne, Hnone |- *. intros a Ha.
      rewrite (has_or_typed_written _ _ _ _ _ _ _ Hheap) by by apply Hne.
      by apply Hnone.
Qed.

(** C5, amended: when the highest-priority writable source [W] ranks below
    the highest-priority source [Dk] that has the key or its type,
    assigning [v] to [k] calls [set(k, v)] on [W] and then on [Dk];
    afterwards the dirty flags of [W] and of the objects up [W]'s parent
    chain are true and every other dirty flag is unchanged. *)
Theorem write_targeting_split fuel self k v st lower W middle Dk higher anc :
  startswith_underscore k = false →
  _sources self = lower ++ W :: middle ++ Dk :: higher →
  writable (heap st W) = true →
  Forall (fun a => writable (heap st a) = false) (middle ++ Dk :: higher) →
  has_or_typed (heap st) k Dk = true →
  Forall (fun a => has_or_typed (heap st) k a = false) higher →
  ancestors (heap st) W anc → length anc < fuel →
  ∃ st', __setattr__ fuel self k v st = Some (Return tt, st')
    ∧ calls st' = calls st ++ [CallSet W k v; CallSet Dk k v]
    ∧ (∀ a, dirty (heap st' a) =
            if decide (a ∈ W :: anc) then true else dirty (heap st a))
    ∧ (∀ a, data (heap st' a) =
            if decide (a = W ∨ a = Dk) then set k v (data (heap st a))
            else data (heap st a)).
Proof.
  intros Hname Hsrcs HW Hnw HDk Hnone Hanc Hlen.
  destruct (write_target_some fuel self k v st W anc)
    as (st1 & Hrun & Hcalls & _ & Hheap); [|done|done|].
  { exists lower, (middle ++ Dk :: higher). by repeat split. }
  pose proof (not_writable_ne _ _ _ HW Hnw) as Hne.
  apply Forall_app in Hne as [_ Hne]. apply Forall_cons in Hne as [HDW Hne].
  rewrite setattr_unfold, Hrun by done.
  rewrite (find_rev_highest _ _ Dk).
  - eexists. split; [reflexivity|]. cbn. rewrite Hcalls, <- app_assoc.
    split; [done|]. split; intros a; unfold update.
    + case_decide; cbn; by rewrite Hheap, written_dirty.
    + destruct (decide (a = Dk)) as [->|Ha]; cbn; rewrite Hheap, written_data.
      * rewrite decide_False by done. rewrite decide_True by by right. done.
      * destruct (decide (a = W)) as [->|Ha'].
        -- by rewrite decide_True by by left.
        -- rewrite decide_False; [done|]. by intros [?|?].
  - exists (lower ++ W :: middle), higher. rewrite <- app_assoc. split; [done|].
    split.
    + by rewrite (has_or_typed_written _ _ _ _ _ _ _ Hheap).
    + rewrite Forall_forall in Hne, Hnone |- *. intros a Ha.
      rewrite (has_or_typed_written _ _ _ _ _ _ _ Hheap) by by apply Hne.
      by apply Hnone.
Qed.

(** C6, amended: in a scope without [cascade] that has a writable source
    and no source that has [k] or its type, with sources whose [set] stores
    the key, assigning to [k] does not raise: the highest-priority writable
    source [W] takes the value, [W] and the objects up its parent chain are
    marked dirty, the scan that follows finds [W] itself, which is set a
    second time, and the call returns. *)
Theorem new_key_is_accepted fuel self k v st lower W higher anc :
  set_stores →
  startswith_underscore k = false →
  _cascade self = false →
  _sources self = lower ++ W :: higher →
  writable (heap st W) = true →
  Forall (fun a => writable (heap st a) = false) higher →
  Forall (fun a => has_or_typed (heap st) k a = false) (_sources self) →
  ancestors (heap st) W anc → length anc < fuel →
  ∃ st', __setattr__ fuel self k v st = Some (Return tt, st')
    ∧ calls st' = calls st ++ [CallSet W k v; CallSet W k v]
    ∧ (∀ a, dirty (heap st' a) =
            if decide (a ∈ W :: anc) then true else dirty (heap st a))
    ∧ (∀ a, data (heap st' a) =
            if decide (a = W) then set k v (set k v (data (heap st a)))
            else data (heap st a)).
Proof.
  intros Hstores Hname _ Hsrcs HW Hnw Hnone Hanc Hlen.
  eapply setattr_write_target_on_top; try eassumption.
  rewrite Hsrcs in Hnone. apply Forall_app in Hnone as [_ Hnone].
  by apply Forall_cons in Hnone as [_ Hnone].
Qed.

(** C7, amended: in a scope where no source is writable and nothing is
    delegated to a parent scope, assigning to [k] skips the write target
    without an error and marks nothing dirty.  It raises [AttributeError],
    leaving every source as it was, when no source has [k] or its type;
    when one does, [set(k, v)] is called on the highest-priority such source
    and the call returns. *)
Theorem no_writable_source fuel self k v st :
  startswith_underscore k = false →
  Forall (fun a => writable (heap st a) = false) (_sources self) →
  _cascade self = false ∨ _parent self = None →
  (Forall (fun a => has_or_typed (heap st) k a = false) (_sources self) →
     __setattr__ fuel self k v st = Some (Raise (no_such_key k), st))
  ∧ (∀ Dk, highest (has_or_typed (heap st) k) (_sources self) Dk →
       __setattr__ fuel self k v st = call_set Dk k v st).
Proof.
  intros Hname Hnw Hstop.
  rewrite setattr_unfold, write_target_none by done. split.
  - intros Hnone. rewrite find_rev_none by done.
    destruct Hstop as [->| ->]; [done|]. by destruct (_cascade self).
  - intros Dk HDk. by rewrite (find_rev_highest _ _ _ HDk).
Qed.

(** C9, amended: in a scope with [cascade] and a parent scope, where no
    local source has [k] or its type, assigning to [k] is delegated to the
    parent scope when the scope has no writable source, and then no local
    source is touched; when it has a writable source [W] (and [set] stores
    the key), [W] is set and marked dirty with the objects up its parent
    chain, the scan that follows finds [W], sets it again, and the call
    returns without delegating: [set] is called on no other source. *)
Theorem delegation_to_parent fuel self p k v st :
  startswith_underscore k = false →
  _cascade self = true →
  _parent self = Some p →
  Forall (fun a => has_or_typed (heap st) k a = false) (_sources self) →
  (Forall (fun a => writable (heap st a) = false) (_sources self) →
     __setattr__ fuel self k v st = __setattr__ fuel p k v st)
  ∧ (∀ lower W higher anc,
       set_stores →
       _sources self = lower ++ W :: higher →
       writable (heap st W) = true →
       Forall (fun a => writable (heap st a) = false) higher →
       ancestors (heap st) W anc → length anc < fuel →
       ∃ st', __setattr__ fuel self k v st = Some (Return tt, st')
         ∧ calls st' = calls st ++ [CallSet W k v; CallSet W k v]
         ∧ (∀ a, dirty (heap st' a) =
                 if decide (a ∈ W :: anc) then true else dirty (heap st a))
         ∧ (∀ a, data (heap st' a) =
                 if decide (a = W) then set k v (set k v (data (heap st a)))
                 else data (heap st a))).
Proof.
  intros Hname Hcascade Hp Hnone. split.
  - intros Hnw. rewrite setattr_unfold, write_target_none by done.
    by rewrite find_rev_none, Hcascade, Hp by done.
  - intros lower W higher anc Hstores Hsrcs HW Hnw Hanc Hlen.
    eapply setattr_write_target_on_top; try eassumption.
    rewrite Hsrcs in Hnone. apply Forall_app in Hnone as [_ Hnone].
    by apply Forall_cons in Hnone as [_ Hnone].
Qed.

End AssignmentProperties.

(** ** [write] and [set] *)

Section WriteBackProperties.

Context {V K D : Type} `{!ConfigSource V K D}.

Implicit Types (st : state V K D) (conf : config).

Lemma root_of_climbs conf : climbs_to conf (root_of conf).
Proof.
  induction conf as [n sk|n sk p IH] using config_parent_ind.
  - apply climbs_here.
  - by apply climbs_up with p.
Qed.

Lemma root_of_has_no_parent conf : _parent (root_of conf) = None.
Proof. by induction conf as [n sk|n sk p IH] using config_parent_ind. Qed.

Lemma save_dirty_spec srcs : ∀ st,
  save_dirty srcs st =
    Some (Return tt,
          {| heap := heap st; next := next st;
             calls := calls st ++ map CallSave (to_save st srcs) |}).
Proof.
  induction srcs as [|src srcs IH]; intros st.
  - destruct st. cbn. by rewrite app_nil_r.
  - cbn. unfold mbind, M_bind, bind, read.
    destruct (writable (heap st src) && dirty (heap st src)); cbn.
    + rewrite IH. cbn. by rewrite <- app_assoc.
    + by rewrite IH.
Qed.

(** C8: [write] climbs the [_parent] links from the given scope to the root
    scope and calls [save] on the sources of the root that are both writable
    and dirty, once per entry and in order; no other call is made, so a
    source that is not dirty, not writable, or not a source of the root is
    not saved, and no source object is changed. *)
Theorem write_back_selectivity conf st :
  climbs_to conf (root_of conf) ∧ _parent (root_of conf) = None
  ∧ LayeredConfig_write conf st =
      Some (Return tt,
            {| heap := heap st; next := next st;
               calls := calls st ++
                        map CallSave (to_save st (_sources (root_of conf))) |})
  ∧ ∀ src, src ∈ to_save st (_sources (root_of conf)) ↔
           src ∈ _sources (root_of conf)
           ∧ writable (heap st src) = true ∧ dirty (heap st src) = true.
Proof.
  split; [apply root_of_climbs|]. split; [apply root_of_has_no_parent|].
  split; [apply save_dirty_spec|].
  intros src. unfold to_save. rewrite !list_elem_of_In, filter_In.
  by rewrite andb_true_iff.
Qed.

Lemma set_matching_none srcs key (value : V) sourceid : ∀ st,
  identified st sourceid srcs = [] →
  set_matching srcs key value sourceid st = Some (Return tt, st).
Proof.
  induction srcs as [|src srcs IH]; intros st Hnone; [done|].
  cbn in Hnone |- *. unfold mbind, M_bind, bind, read.
  destruct (String.eqb _ _); [done|]. cbn. by apply IH.
Qed.

Lemma set_matching_spec srcs key (value : V) sourceid : ∀ st,
  ∃ st', set_matching srcs key value sourceid st = Some (Return tt, st')
    ∧ calls st' = calls st ++
                  map (fun src => CallSet src key value) (identified st sourceid srcs)
    ∧ next st' = next st
    ∧ ∀ a, heap st' a =
           Nat.iter (count_occ Nat.eq_dec (identified st sourceid srcs) a)
                    (with_data (set key value)) (heap st a).
Proof.
  induction srcs as [|src srcs IH]; intros st.
  - exists st. cbn. by rewrite app_nil_r.
  - cbn. unfold mbind, M_bind, bind, read.
    destruct (String.eqb (identifier (heap st src)) sourceid) eqn:Hid; cbn.
    + set (st1 := {| heap := update (heap st) src (with_data (set key value));
                     next := next st;
                     calls := calls st ++ [CallSet src key value] |}).
      destruct (IH st1) as (st' & Hrun & Hcalls & Hnext & Hheap).
      assert (identified st1 sourceid srcs = identified st sourceid srcs) as Hsame.
      { unfold identified. apply filter_ext. intros a. cbn. unfold update.
        by case_decide. }
      rewrite Hsame in Hcalls, Hheap.
      exists st'. split; [done|]. split; [|split; [done|]].
      * rewrite Hcalls. cbn. by rewrite <- app_assoc.
      * intros a. rewrite Hheap. cbn. unfold update.
        destruct (Nat.eq_dec src a) as [->|Hne].
        -- rewrite decide_True by done. by rewrite <- Nat.iter_succ_r.
        -- by rewrite decide_False by done.
    + destruct (IH st) as (st' & Hrun & Hcalls & Hnext & Hheap).
      by exists st'.
Qed.

Lemma iter_with_data_dirty n (f : D → D) (s : source K D) :
  dirty (Nat.iter n (with_data f) s) = dirty s.
Proof. induction n as [|n IH]; [done|]. exact IH. Qed.

Lemma iter_with_data_data n (f : D → D) (s : source K D) :
  data (Nat.iter n (with_data f) s) = Nat.iter n f (data s).
Proof.
  induction n as [|n IH]; [done|].
  rewrite !Nat.iter_succ. cbn [data with_data]. by rewrite IH.
Qed.

(** C10: [LayeredConfig.set] calls [set(key, value)] on the sources of the
    scope whose identifier is [sourceid], once per entry and in order, and
    makes no other call; no dirty flag changes; when no identifier matches
    it returns with every source as it was. *)
Theorem set_by_identifier conf key (value : V) sourceid st :
  (∃ st', LayeredConfig_set conf key value sourceid st = Some (Return tt, st')
     ∧ calls st' = calls st ++
                   map (fun src => CallSet src key value)
                       (identified st sourceid (_sources conf))
     ∧ (∀ a, dirty (heap st' a) = dirty (heap st a))
     ∧ (∀ a, data (heap st' a) =
             Nat.iter (count_occ Nat.eq_dec (identified st sourceid (_sources conf)) a)
                      (set key value) (data (heap st a))))
  ∧ (identified st sourceid (_sources conf) = [] →
       LayeredConfig_set conf key value sourceid st = Some (Return tt, st)).
Proof.
  split; [|apply set_matching_none].
  destruct (set_matching_spec (_sources conf) key value sourceid st)
    as (st' & Hrun & Hcalls & _ & Hheap).
  exists st'. split; [done|]. split; [done|].
  split; intros a; rewrite Hheap.
  - apply iter_with_data_dirty.
  - apply iter_with_data_data.
Qed.

End WriteBackProperties.

(** ** Construction *)

Section ConstructionProperties.

Context {V K D : Type} `{!ConfigSource V K D}.

Implicit Types (h : store K D) (st : state V K D).

Lemma add_key_elem sectionkeys k k' :
  k' ∈ add_key sectionkeys k ↔ k' ∈ sectionkeys ∨ k' = k.
Proof.
  unfold add_key. case_bool_decide as Hin.
  - split; [by left|]. by intros [?| ->].
  - rewrite elem_of_app, list_elem_of_singleton. done.
Qed.

Lemma add_key_NoDup sectionkeys k :
  NoDup sectionkeys → NoDup (add_key sectionkeys k).
Proof.
  intros Hnd. unfold add_key. case_bool_decide as Hin; [done|].
  apply NoDup_app. split; [done|]. split.
  - intros k' Hk' ->%list_elem_of_singleton. done.
  - apply NoDup_singleton.
Qed.

Lemma fold_add_key_elem l : ∀ sectionkeys k',
  k' ∈ fold_left add_key l sectionkeys ↔ k' ∈ sectionkeys ∨ k' ∈ l.
Proof.
  induction l as [|k l IH]; intros sectionkeys k'; cbn.
  - rewrite elem_of_nil. tauto.
  - rewrite IH, add_key_elem, elem_of_cons. tauto.
Qed.

Lemma fold_add_key_NoDup l : ∀ sectionkeys,
  NoDup sectionkeys → NoDup (fold_left add_key l sectionkeys).
Proof.
  induction l as [|k l IH]; intros sectionkeys Hnd; [done|].
  cbn. by apply IH, add_key_NoDup.
Qed.

(** Step 1 collects the union of the subsection names of all sources. *)
Lemma find_names_elem h srcs : ∀ sectionkeys k,
  k ∈ find_names h srcs sectionkeys ↔
  k ∈ sectionkeys ∨ ∃ src, src ∈ srcs ∧ k ∈ names_of h src.
Proof.
  induction srcs as [|src srcs IH]; intros sectionkeys k; cbn.
  - split; [by left|]. intros [?|(src & Hsrc & _)]; [done|].
    by apply elem_of_nil in Hsrc.
  - assert (k ∈ find_names h srcs (fold_left add_key (names_of h src) sectionkeys)
            ↔ k ∈ sectionkeys ∨ ∃ src', src' ∈ src :: srcs ∧ k ∈ names_of h src')
      as Hgoal.
    { rewrite IH, fold_add_key_elem. split.
      - intros [[?|?]|(src' & Hsrc' & Hk)]; [by left| |].
        + right. exists src. split; [|done]. apply elem_of_cons. by left.
        + right. exists src'. split; [|done]. apply elem_of_cons. by right.
      - intros [?|(src' & [->|Hsrc']%elem_of_cons & Hk)]; [by left; left| |].
        + left. by right.
        + right. by exists src'. }
    unfold names_of in Hgoal at 1. by destruct (subs (h src)).
Qed.

(** No name is registered twice. *)
Lemma find_names_NoDup h srcs : ∀ sectionkeys,
  NoDup sectionkeys → NoDup (find_names h srcs sectionkeys).
Proof.
  induction srcs as [|src srcs IH]; intros sectionkeys Hnd; [done|].
  cbn. destruct (subs (h src)); [|by apply IH].
  by apply IH, fold_add_key_NoDup.
Qed.

Lemma fold_add_key_first_seen l : ∀ sectionkeys,
  fold_left add_key l sectionkeys
  = sectionkeys ++ filter (fun k => k ∉ sectionkeys) (first_seen l).
Proof.
  induction l as [|k l IH]; intros sectionkeys; cbn [fold_left first_seen].
  - by rewrite filter_nil, app_nil_r.
  - rewrite IH. unfold add_key. case_bool_decide as Hin.
    + rewrite filter_cons_False by (intros Hn; by apply Hn). f_equal.
      rewrite list_filter_filter. apply list_filter_iff.
      intros k'. split; [|by intros [? _]]. intros Hk'. split; [done|]. by intros ->.
    + rewrite filter_cons_True by done. rewrite <- app_assoc. cbn. do 2 f_equal.
      rewrite list_filter_filter. apply list_filter_iff.
      intros k'. rewrite elem_of_app, list_elem_of_singleton. tauto.
Qed.

Lemma find_names_fold h srcs : ∀ sectionkeys,
  find_names h srcs sectionkeys
  = fold_left add_key (concat (map (names_of h) srcs)) sectionkeys.
Proof.
  induction srcs as [|src srcs IH]; intros sectionkeys; [done|].
  cbn. rewrite fold_left_app, <- IH. unfold names_of.
  by destruct (subs (h src)).
Qed.

Lemma find_names_first_seen h srcs :
  find_names h srcs [] = first_seen (concat (map (names_of h) srcs)).
Proof.
  rewrite find_names_fold, fold_add_key_first_seen. cbn [app].
  induction (first_seen _) as [|k l IH]; [done|].
  rewrite filter_cons_True by apply not_elem_of_nil. by rewrite IH.
Qed.

Lemma extends_refl st : extends st st.
Proof. by repeat split. Qed.

Lemma extends_trans st1 st2 st3 :
  extends st1 st2 → extends st2 st3 → extends st1 st3.
Proof.
  intros (Hn1 & Hh1 & Hc1) (Hn2 & Hh2 & Hc2). repeat split.
  - lia.
  - intros a Ha. rewrite Hh2 by lia. by apply Hh1.
  - congruence.
Qed.

Lemma alloc_extends (s : source K D) st a st' :
  alloc s st = Some (Return a, st') →
  extends st st' ∧ a = next st ∧ next st' = S (next st) ∧ heap st' a = s.
Proof.
  unfold alloc. intros [= <- <-]. cbn. unfold update.
  split; [|by rewrite decide_True].
  split; [cbn; lia|]. split; [|done].
  intros a Ha. cbn. by rewrite decide_False by lia.
Qed.

Lemma matching_spec cascade k srcs : ∀ st0 st s st',
  extends st0 st →
  matching cascade k srcs st = Some (Return s, st') →
  Forall (fun src => src < next st0) srcs →
  extends st st' ∧ Forall2 (placed st0 st' cascade k) srcs s.
Proof.
  induction srcs as [|src srcs IH]; intros st0 st s st' Hbase Hrun Hlt.
  - cbn in Hrun. injection Hrun as <- <-. split; [apply extends_refl|constructor].
  - apply Forall_cons in Hlt as [Hsrc Hlt].
    assert (heap st src = heap st0 src) as Hsame.
    { destruct Hbase as (_ & Hh & _). by apply Hh. }
    cbn in Hrun. unfold mbind, M_bind, bind at 1, read at 1 in Hrun.
    destruct (subs (heap st src)) as [l|] eqn:Hl; [|done].
    destruct (assoc k l) as [own|] eqn:Hown.
    + unfold bind, ret in Hrun.
      destruct (matching cascade k srcs st) as [[[s0|e] st1]|] eqn:Hrest; try done.
      injection Hrun as <- <-.
      destruct (IH _ _ _ _ Hbase Hrest Hlt) as [Hext Hplaced].
      split; [done|]. constructor; [|done].
      exists l. by rewrite <- Hsame, Hl, Hown.
    + unfold bind at 1 in Hrun. unfold placeholder, mbind, M_bind, bind, read in Hrun.
      destruct (alloc _ st) as [[[a|e] st1]|] eqn:Halloc; try done.
      apply alloc_extends in Halloc as (Hext1 & -> & Hnext1 & Hobj).
      destruct (matching cascade k srcs st1) as [[[s0|e] st2]|] eqn:Hrest; try done.
      injection Hrun as <- <-.
      destruct (IH st0 _ _ _ (extends_trans _ _ _ Hbase Hext1) Hrest Hlt)
        as [Hext Hplaced].
      split; [by eapply extends_trans|]. constructor; [|done].
      exists l. rewrite <- Hsame, Hl, Hown.
      destruct Hbase as (Hn0 & _), Hext as (Hn2 & Hh2 & _).
      split; [done|]. split; [lia|].
      rewrite Hh2 by lia. done.
Qed.

Lemma matching_extends cascade k srcs : ∀ st r st',
  matching cascade k srcs st = Some (r, st') → extends st st'.
Proof.
  induction srcs as [|src srcs IH]; intros st r st' Hrun.
  - cbn in Hrun. injection Hrun as <- <-. apply extends_refl.
  - cbn in Hrun. unfold mbind, M_bind, bind at 1, read at 1 in Hrun.
    destruct (subs (heap st src)) as [l|].
    2:{ injection Hrun as <- <-. apply extends_refl. }
    destruct (assoc k l) as [own|].
    + unfold bind, ret in Hrun.
      destruct (matching cascade k srcs st) as [[[s0|e] st1]|] eqn:Hrest; try done;
        injection Hrun as <- <-; by eapply IH.
    + unfold bind at 1 in Hrun. unfold placeholder, mbind, M_bind, bind, read in Hrun.
      destruct (alloc _ st) as [[[a|e] st1]|] eqn:Halloc; try done.
      apply alloc_extends in Halloc as (Hext1 & _).
      destruct (matching cascade k srcs st1) as [[[s0|e] st2]|] eqn:Hrest; try done;
        injection Hrun as <- <-; eapply extends_trans; eauto.
Qed.

Lemma init_node fuel cascade writable sources st t st' :
  __init__ fuel cascade writable sources st = Some (Return t, st') →
  ∃ subsections, t = Node sources subsections cascade writable.
Proof.
  destruct fuel as [|fuel]; [done|]. cbn.
  unfold mbind, M_bind, bind, read, ret.
  destruct (build_subsections _ _ _ _ _) as [[[subsections|e] st1]|]; try done.
  intros [= <- <-]. by eexists.
Qed.

Lemma build_subsections_extends (build : list addr → M V K D tree) cascade sources :
  (∀ s st r st', build s st = Some (r, st') → extends st st') →
  ∀ names st r st',
    build_subsections build cascade sources names st = Some (r, st') →
    extends st st'.
Proof.
  intros Hbuild. induction names as [|k names IH]; intros st r st' Hrun.
  - cbn in Hrun. injection Hrun as <- <-. apply extends_refl.
  - cbn in Hrun. unfold mbind, M_bind, bind at 1 in Hrun.
    destruct (matching cascade k sources st) as [[[s|e] st1]|] eqn:Hm; try done.
    2:{ injection Hrun as <- <-. by eapply matching_extends. }
    apply matching_extends in Hm.
    unfold bind at 1 in Hrun.
    destruct (build s st1) as [[[c|e] st2]|] eqn:Hb; try done.
    2:{ injection Hrun as <- <-. eapply extends_trans; eauto. }
    apply Hbuild in Hb.
    unfold bind, ret in Hrun.
    destruct (build_subsections _ _ _ _ st2) as [[[rest|e] st3]|] eqn:Hr; try done;
      injection Hrun as <- <-; apply IH in Hr;
      eapply extends_trans; eauto using extends_trans.
Qed.

Lemma init_extends fuel cascade writable : ∀ sources st r st',
  __init__ fuel cascade writable sources st = Some (r, st') → extends st st'.
Proof.
  induction fuel as [|fuel IH]; intros sources st r st' Hrun; [done|].
  cbn in Hrun. unfold mbind, M_bind, bind, read, ret in Hrun.
  destruct (build_subsections _ _ _ _ _) as [[[subsections|e] st1]|] eqn:Hb;
    try done; injection Hrun as <- <-;
    eapply build_subsections_extends in Hb; eauto.
Qed.

Lemma build_subsections_spec fuel cascade writable sources st0 :
  Forall (fun src => src < next st0) sources →
  ∀ names st subsections st',
    extends st0 st →
    build_subsections (__init__ fuel cascade writable) cascade sources names st
      = Some (Return subsections, st') →
    extends st st' ∧ map fst subsections = names
    ∧ Forall (fun '(k, child) =>
                ∃ s below, child = Node s below cascade writable
                           ∧ Forall2 (placed st0 st' cascade k) sources s)
        subsections.
Proof.
  intros Hlt. induction names as [|k names IH]; intros st subsections st' Hbase Hrun.
  - cbn in Hrun. injection Hrun as <- <-.
    split; [apply extends_refl|]. split; [done|constructor].
  - cbn in Hrun. unfold mbind, M_bind, bind at 1 in Hrun.
    destruct (matching cascade k sources st) as [[[s|e] st1]|] eqn:Hm; try done.
    destruct (matching_spec _ _ _ _ _ _ _ Hbase Hm Hlt) as [Hext1 Hplaced].
    unfold bind at 1 in Hrun.
    destruct (__init__ fuel cascade writable s st1) as [[[c|e] st2]|] eqn:Hb; try done.
    destruct (init_node _ _ _ _ _ _ _ Hb) as [below ->].
    apply init_extends in Hb.
    unfold bind, ret in Hrun.
    destruct (build_subsections _ _ _ _ st2) as [[[rest|e] st3]|] eqn:Hr; try done.
    injection Hrun as <- <-.
    destruct (IH _ _ _ (extends_trans _ _ _ Hbase (extends_trans _ _ _ Hext1 Hb)) Hr)
      as (Hext3 & Hnames & Hrest).
    split; [eauto using extends_trans|]. split; [cbn; by rewrite Hnames|].
    constructor; [|done]. exists s, below. split; [done|].
    eapply Forall2_impl; [exact Hplaced|].
    intros src sub (l & Hl & Hsub). exists l. split; [done|].
    destruct (assoc k l); [done|]. destruct Hsub as [Hrange Hobj].
    destruct Hb as (Hn2 & Hh2 & _), Hext3 as (Hn3 & Hh3 & _).
    split; [lia|]. rewrite Hh3, Hh2 by lia. done.
Qed.

(** X15: where the constructor returns, it has built what section 4.2
    describes: the subsections are the union of the sources' subsection
    names in first-seen order, and the child for each name has one entry
    per source, in order: the source's own subsection, or a placeholder
    created for it. *)
Theorem construction_builds fuel cascade writable sources st t st' :
  __init__ fuel cascade writable sources st = Some (Return t, st') →
  Forall (fun src => src < next st) sources →
  ∃ subsections,
    t = Node sources subsections cascade writable
    ∧ map fst subsections = first_seen (concat (map (names_of (heap st)) sources))
    ∧ Forall (fun '(k, child) =>
                ∃ s below, child = Node s below cascade writable
                           ∧ Forall2 (placed st st' cascade k) sources s)
        subsections.
Proof.
  intros Hrun Hlt. destruct fuel as [|fuel]; [done|].
  cbn in Hrun. unfold mbind, M_bind, bind, read, ret in Hrun.
  destruct (build_subsections _ _ _ _ _) as [[[subsections|e] st1]|] eqn:Hb;
    try done.
  injection Hrun as <- <-.
  destruct (build_subsections_spec _ _ _ _ st Hlt _ _ _ _ (extends_refl st) Hb)
    as (_ & Hkeys & Hchildren).
  exists subsections. split; [done|]. split; [|done].
  by rewrite Hkeys, find_names_first_seen.
Qed.
Lemma matching_unsupported cascade k srcs : ∀ st,
  Exists (fun src => subs (heap st src) = None) srcs →
  Forall (fun src => src < next st) srcs →
  ∃ st', matching cascade k srcs st = Some (Raise (AttributeError "subsections"), st').
Proof.
  induction srcs as [|src srcs IH]; intros st Hex Hlt.
  - by apply Exists_nil in Hex.
  - apply Forall_cons in Hlt as [Hsrc Hlt].
    cbn. unfold mbind, M_bind, bind at 1. unfold read at 1.
    destruct (subs (heap st src)) as [l|] eqn:Hsubs; [|by eexists].
    apply Exists_cons in Hex as [Hex|Hex]; [congruence|].
    destruct (assoc k l) as [sub|].
    + unfold bind, ret. cbn. destruct (IH st Hex Hlt) as (st' & ->). by eexists.
    + unfold bind, placeholder, mbind, M_bind, bind, read, alloc. cbn.
      match goal with
      | |- context [matching cascade k srcs ?st1] =>
          destruct (IH st1) as (st' & ->)
      end.
      * apply Exists_exists. apply Exists_exists in Hex as (src' & Hin & Hnone).
        exists src'. split; [done|]. cbn. unfold update.
        rewrite Forall_forall in Hlt. apply Hlt in Hin.
        rewrite decide_False by lia. done.
      * cbn. eapply Forall_impl; [exact Hlt|]. cbn. lia.
      * by eexists.
Qed.

(** C4, where the code departs from it: when one of the sources does not
    support [subsections()] (the call raises [AttributeError], which step 1
    tolerates on lines 89-92) and another source has a subsection,
    construction does not build the scope: step 2 calls [subsections()]
    again on line 99, outside any [try], and the constructor raises. *)
Theorem construction_unsupported_subsections fuel cascade writable sources st :
  Exists (fun src => subs (heap st src) = None) sources →
  Exists (fun src => names_of (heap st) src ≠ []) sources →
  Forall (fun src => src < next st) sources →
  ∃ st', __init__ (S fuel) cascade writable sources st
         = Some (Raise (AttributeError "subsections"), st').
Proof.
  intros Hnone Hsome Hlt. cbn. unfold mbind, M_bind, bind at 1. unfold read.
  destruct (find_names (heap st) sources []) as [|k keys] eqn:Hnames.
  - exfalso. apply Exists_exists in Hsome as (src & Hsrc & Hne).
    destruct (names_of (heap st) src) as [|k l] eqn:Hk; [done|].
    assert (k ∈ find_names (heap st) sources []) as Hin.
    { apply find_names_elem. right. exists src. split; [done|].
      rewrite Hk. apply elem_of_cons. by left. }
    rewrite Hnames in Hin. by apply elem_of_nil in Hin.
  - cbn. unfold bind at 1. unfold mbind, M_bind, bind at 1.
    destruct (matching_unsupported cascade k sources st Hnone Hlt) as (st' & ->).
    by eexists.
Qed.

End ConstructionProperties.

Set Warnings "-clear-no-such-hyp".

(** ** More on attribute lookup *)

Section MoreLookup.

Context {V K D : Type} `{!ConfigSource V K D}.

Implicit Types (h : store K D) (self : config) (k : string).

Lemma climb_no_cascade fuel h src k :
  climb (S fuel) h false src k
  = Some (if has (data (h src)) k then Some src else None).
Proof. simpl. by destruct (has _ _). Qed.

Lemma value_source_no_cascade fuel h srcs k :
  value_source (S fuel) h false srcs k = Some (find (fun src => has (data (h src)) k) srcs).
Proof.
  induction srcs as [|src srcs IH]; [done|].
  cbn [value_source find]. rewrite climb_no_cascade.
  by destruct (has _ _).
Qed.

(** X1: without [cascade], the lookup of a key returns the value resolved
    from the highest-priority source that has the key; sources above it
    that lack the key are passed over, whatever the sources below it
    hold. *)
Theorem highest_source_wins fuel h self k src :
  startswith_underscore k = false →
  assoc k (_subsections self) = None →
  _cascade self = false →
  highest (fun s => has (data (h s)) k) (_sources self) src →
  __getattribute__ (S fuel) h self k = Some (Return (Value (resolved h self src k))).
Proof.
  intros Hname Hsub Hcascade Hsrc. destruct self as [n sk p].
  cbn [__getattribute__]. rewrite Hname, Hsub, Hcascade.
  by rewrite value_source_no_cascade, (find_rev_highest _ _ _ Hsrc).
Qed.



End MoreLookup.

Section FirstSeen.

Lemma first_seen_elem (l : list string) k : k ∈ first_seen l ↔ k ∈ l.
Proof.
  induction l as [|k' l IH]; [done|]. cbn [first_seen].
  rewrite !elem_of_cons, list_elem_of_filter, IH.
  destruct (decide (k = k')); naive_solver.
Qed.

Lemma first_seen_NoDup (l : list string) : NoDup (first_seen l).
Proof.
  induction l as [|k l IH]; [constructor|]. cbn [first_seen].
  apply NoDup_cons. split.
  - rewrite list_elem_of_filter. by intros [? _].
  - by apply NoDup_filter.
Qed.

Lemma first_seen_app (l1 l2 : list string) :
  first_seen (l1 ++ l2)
  = first_seen l1 ++ filter (fun k => k ∉ l1) (first_seen l2).
Proof.
  induction l1 as [|k l1 IH].
  - cbn [app first_seen]. induction (first_seen l2) as [|k l IHl]; [done|].
    rewrite filter_cons_True by apply not_elem_of_nil. by rewrite <- IHl.
  - cbn [app first_seen]. rewrite IH, filter_app, list_filter_filter.
    do 2 f_equal. apply list_filter_iff. intros k'.
    rewrite not_elem_of_cons. tauto.
Qed.

End FirstSeen.

Section IterationProperties.

Context {V K D : Type} `{!ConfigSource V K D} `{!SourceKeys D}.

Implicit Types (h : store K D) (self : config) (k : string).

Lemma iterate_unfold h self :
  iterate h self =
    (first_seen (source_keys h (_sources self)
                 ++ if _cascade self
                    then match _parent self with
                         | Some p => snd (iterate h p)
                         | None => []
                         end
                    else []),
     first_seen (source_keys h (_sources self)
                 ++ if _cascade self
                    then match _parent self with
                         | Some p => snd (iterate h p)
                         | None => []
                         end
                    else [])
     ++ match _parent self with
        | Some p => snd (iterate h p)
        | None => []
        end).
Proof. by destruct self as [n sk [p|]]. Qed.

(** What iterating over [self] and then over each scope above it yields:
    the keys of the sources of all these scopes. *)
Lemma chain_elem h self k :
  k ∈ snd (iterate h self) ↔
  ∃ c, c ∈ self :: scopes_above self ∧ k ∈ source_keys h (_sources c).
Proof.
  induction self as [n sk|n sk p IH] using config_parent_ind;
    rewrite iterate_unfold; cbn [snd _parent scopes_above].
  - rewrite app_nil_r, first_seen_elem.
    destruct (_cascade _); rewrite ?app_nil_r; split.
    + intros Hk. eexists. split; [apply elem_of_cons; by left|done].
    + by intros (c & ->%list_elem_of_singleton & Hk).
    + intros Hk. eexists. split; [apply elem_of_cons; by left|done].
    + by intros (c & ->%list_elem_of_singleton & Hk).
  - rewrite elem_of_app, first_seen_elem, IH. split.
    + intros [Hk|(c & Hc & Hk)].
      * destruct (_cascade _).
        -- apply elem_of_app in Hk as [Hk|Hk].
           ++ eexists. split; [apply elem_of_cons; by left|done].
           ++ apply IH in Hk as (c & Hc & Hk). exists c. split; [|done].
              apply elem_of_cons. by right.
        -- rewrite app_nil_r in Hk.
           eexists. split; [apply elem_of_cons; by left|done].
      * exists c. split; [|done]. apply elem_of_cons. by right.
    + intros (c & [->|Hc]%elem_of_cons & Hk).
      * left. apply elem_of_app. by left.
      * right. by exists c.
Qed.

(** X4: iterating over a scope yields exactly the keys of its own sources
    and, when the scope has [cascade], the keys of the sources of every
    scope above it, whether or not those scopes have [cascade]
    themselves. *)
Theorem iter_yields h self k :
  k ∈ __iter__ h self ↔
  k ∈ source_keys h (_sources self)
  ∨ (_cascade self = true
     ∧ ∃ c, c ∈ scopes_above self ∧ k ∈ source_keys h (_sources c)).
Proof.
  unfold __iter__. rewrite iterate_unfold. cbn [fst].
  rewrite first_seen_elem, elem_of_app.
  destruct self as [n sk [p|]]; cbn [_parent scopes_above].
  - destruct (_cascade _) eqn:Hc.
    + rewrite chain_elem. naive_solver.
    + rewrite elem_of_nil. naive_solver.
  - destruct (_cascade _); rewrite elem_of_nil; split; try naive_solver.
    intros [?|(_ & c & Hc & _)]; [by left|]. by apply elem_of_nil in Hc.
Qed.

(** X5: iterating over a scope yields no key twice, and starts with the
    keys of the scope's own sources in the order of the source list (lowest
    priority first), each where it first occurs; what [cascade] adds comes
    after them. *)
Theorem iter_order h self :
  NoDup (__iter__ h self)
  ∧ first_seen (source_keys h (_sources self)) `prefix_of` __iter__ h self.
Proof.
  unfold __iter__. rewrite iterate_unfold. cbn [fst]. split.
  - apply first_seen_NoDup.
  - rewrite first_seen_app. by eexists.
Qed.

Lemma source_keys_elem h srcs k :
  k ∈ source_keys h srcs ↔ ∃ src, src ∈ srcs ∧ k ∈ keys (data (h src)).
Proof.
  unfold source_keys. induction srcs as [|src srcs IH]; cbn [map concat].
  - rewrite elem_of_nil. split; [done|]. intros (src & Hsrc & _).
    by apply elem_of_nil in Hsrc.
  - rewrite elem_of_app, IH. split.
    + intros [Hk|(src' & Hsrc' & Hk)].
      * exists src. split; [apply elem_of_cons; by left|done].
      * exists src'. split; [apply elem_of_cons; by right|done].
    + intros (src' & [->|Hsrc']%elem_of_cons & Hk); [by left|].
      right. by exists src'.
Qed.

Lemma climb_bounded fuel h cascade src k :
  bounded fuel h src →
  ∃ r, climb fuel h cascade src k = Some r
       ∧ (r = None → has (data (h src)) k = false).
Proof.
  intros (anc & Hanc & Hlen). revert fuel Hlen.
  induction Hanc as [src Hp|src p anc Hp _ IH]; intros fuel Hlen;
    (destruct fuel as [|fuel]; [simpl in Hlen; lia|]); cbn [climb];
    destruct (has (data (h src)) k) eqn:Hk; try by eexists.
  - rewrite Hp. destruct cascade; by eexists.
  - rewrite Hp. destruct cascade; [|by eexists].
    destruct (IH fuel) as (r & -> & _); [simpl in Hlen; lia|]. by eexists.
Qed.

Lemma value_source_bounded fuel h cascade srcs k :
  Forall (bounded fuel h) srcs →
  ∃ r, value_source fuel h cascade srcs k = Some r
       ∧ (r = None → Forall (fun src => has (data (h src)) k = false) srcs).
Proof.
  induction 1 as [|src srcs Hsrc _ (r & IH & Hr)]; [by eexists|].
  cbn [value_source].
  destruct (climb_bounded fuel h cascade src k Hsrc) as ([found|] & -> & Hnone).
  - by eexists.
  - rewrite IH. exists r. split; [done|]. intros ->. constructor; auto.
Qed.

Lemma lookup_local fuel h k self :
  keys_listed → startswith_underscore k = false →
  Forall (bounded fuel h) (_sources self) →
  (∃ r, __getattribute__ fuel h self k = Some (Return r))
  ∨ (assoc k (_subsections self) = None
     ∧ value_source fuel h (_cascade self) (rev (_sources self)) k = Some None
     ∧ ¬ k ∈ source_keys h (_sources self)).
Proof.
  intros Hlisted Hname Hb. destruct self as [n sk p]. cbn [__getattribute__].
  rewrite Hname. destruct (assoc k _) as [child|]; [left; by eexists|].
  destruct (value_source_bounded fuel h (_cascade (Config n sk p))
              (rev (_sources (Config n sk p))) k) as ([src|] & -> & Hnone).
  { by apply Forall_rev. }
  { left. by eexists. }
  right. split; [done|]. split; [done|].
  intros (src & Hsrc & Hk)%source_keys_elem.
  specialize (Hnone eq_refl). apply Forall_rev in Hnone.
  rewrite rev_involutive, Forall_forall in Hnone.
  specialize (Hnone src Hsrc). specialize (Hlisted _ _ Hk). congruence.
Qed.

Lemma listed_key_resolves fuel h k :
  keys_listed → startswith_underscore k = false →
  ∀ self,
    Forall (fun c => Forall (bounded fuel h) (_sources c))
      (self :: scopes_above self) →
    Forall (fun c => _cascade c = true) (self :: scopes_above self) →
    (∃ c, c ∈ self :: scopes_above self ∧ k ∈ source_keys h (_sources c)) →
    ∃ r, __getattribute__ fuel h self k = Some (Return r).
Proof.
  intros Hlisted Hname.
  induction self as [n sk|n sk p IH] using config_parent_ind;
    cbn [scopes_above _parent]; intros Hb Hc Hk.
  - apply Forall_cons in Hb as [Hb _].
    destruct (lookup_local fuel h k _ Hlisted Hname Hb) as [?|(_ & _ & Hnot)];
      [done|].
    destruct Hk as (c & Hin & Hk).
    by apply list_elem_of_singleton in Hin as ->.
  - apply Forall_cons in Hb as [Hb Hbp]. apply Forall_cons in Hc as [Hcs Hc].
    destruct (lookup_local fuel h k _ Hlisted Hname Hb)
      as [?|(Hsub & Hscan & Hnot)]; [done|].
    cbn [__getattribute__]. rewrite Hname, Hsub, Hscan, Hcs.
    destruct Hk as (c & Hin & Hk).
    apply elem_of_cons in Hin as [->|Hin]; [done|].
    apply IH; [done|done|]. by exists c.
Qed.

(** X6: every name that iterating over a scope yields can be looked up on
    the scope: for sources whose [keys()] lists keys that [has] reports,
    in a chain of scopes that share the [cascade] flag (as the constructor
    builds them) and whose sources have finite parent chains, the lookup of
    a yielded name returns and does not raise. *)
Theorem iter_keys_resolve fuel h self k :
  keys_listed → startswith_underscore k = false →
  Forall (fun c => Forall (bounded fuel h) (_sources c))
    (self :: scopes_above self) →
  Forall (fun c => _cascade c = _cascade self) (scopes_above self) →
  k ∈ __iter__ h self →
  ∃ r, __getattribute__ fuel h self k = Some (Return r).
Proof.
  intros Hlisted Hname Hb Hc Hk.
  unfold __iter__ in Hk. rewrite iterate_unfold in Hk. cbn [fst] in Hk.
  apply first_seen_elem, elem_of_app in Hk.
  destruct (_cascade self) eqn:Hcascade.
  - apply listed_key_resolves; try done; [by constructor|].
    destruct Hk as [Hk|Hk].
    + eexists. split; [apply elem_of_cons; by left|done].
    + destruct self as [n sk [p|]]; cbn [_parent scopes_above] in *;
        [|by apply elem_of_nil in Hk].
      apply chain_elem in Hk as (c & Hin & Hk). exists c. split; [|done].
      apply elem_of_cons. by right.
  - destruct Hk as [Hk|Hk]; [|by apply elem_of_nil in Hk].
    apply Forall_cons in Hb as [Hb _].
    by destruct (lookup_local fuel h k _ Hlisted Hname Hb) as [?|(_ & _ & Hnot)].
Qed.

End IterationProperties.

Section MoreAssignment.

Context {V K D : Type} `{!ConfigSource V K D}.

Implicit Types (h : store K D) (st : state V K D) (self : config) (k : string)
  (v : V).

Lemma kept_refl (s : source K D) : kept s s.
Proof. by repeat split. Qed.

Lemma kept_trans (s1 s2 s3 : source K D) : kept s1 s2 → kept s2 s3 → kept s1 s3.
Proof.
  intros (? & ? & ? & ? & ? & Hd1) (? & ? & ? & ? & ? & Hd2).
  repeat split; try congruence. auto.
Qed.

Lemma assigned_refl k v st : assigned k v st st.
Proof.
  split; [done|]. split; [intros a; apply kept_refl|].
  exists []. by rewrite app_nil_r.
Qed.

Lemma assigned_trans k v st1 st2 st3 :
  assigned k v st1 st2 → assigned k v st2 st3 → assigned k v st1 st3.
Proof.
  intros (Hn1 & Hk1 & l1 & Hc1 & Hl1) (Hn2 & Hk2 & l2 & Hc2 & Hl2).
  split; [congruence|]. split.
  - intros a. eapply kept_trans; eauto.
  - exists (l1 ++ l2). rewrite Hc2, Hc1, <- app_assoc. split; [done|].
    by apply Forall_app.
Qed.

Lemma call_set_assigned src k v st :
  ∃ st', call_set src k v st = Some (Return tt, st') ∧ assigned k v st st'.
Proof.
  eexists. split; [reflexivity|]. split; [done|]. split.
  - intros a. cbn. unfold update. case_decide; by repeat split.
  - exists [CallSet src k v]. split; [done|]. constructor; [|done].
    left. by eexists.
Qed.

Lemma mark_dirty_assigned src k v st :
  ∃ st', mark_dirty src st = Some (Return tt, st') ∧ assigned k v st st'.
Proof.
  eexists. split; [reflexivity|]. split; [done|]. split.
  - intros a. cbn. unfold update. case_decide; by repeat split.
  - exists []. cbn. by rewrite app_nil_r.
Qed.

Lemma dirty_parents_assigned k v fuel : ∀ src st o st',
  dirty_parents fuel src st = Some (o, st') → assigned k v st st'.
Proof.
  induction fuel as [|fuel IH]; intros src st o st' Hrun; [done|].
  cbn in Hrun. unfold mbind, M_bind, bind, read in Hrun.
  destruct (parent (heap st src)) as [p|].
  - destruct (mark_dirty_assigned p k v st) as (st1 & Hm & Ha).
    rewrite Hm in Hrun. eapply assigned_trans; [exact Ha|]. by eapply IH.
  - injection Hrun as <- <-. apply assigned_refl.
Qed.

Lemma write_target_assigned fuel self k v st o st' :
  write_target fuel self k v st = Some (o, st') → assigned k v st st'.
Proof.
  unfold write_target, mbind, M_bind, bind at 1, read. intros Hrun.
  destruct (find _ _) as [W|].
  - destruct (call_set_assigned W k v st) as (st1 & Hs & Ha1).
    unfold bind at 1 in Hrun. rewrite Hs in Hrun.
    destruct (mark_dirty_assigned W k v st1) as (st2 & Hm & Ha2).
    unfold bind in Hrun. rewrite Hm in Hrun.
    apply (dirty_parents_assigned k v) in Hrun.
    eauto using assigned_trans.
  - injection Hrun as <- <-. apply assigned_refl.
Qed.

Lemma dirty_parents_returns fuel : ∀ src st o st',
  dirty_parents fuel src st = Some (o, st') → o = Return tt.
Proof.
  induction fuel as [|fuel IH]; intros src st o st'; [done|].
  cbn. unfold mbind, M_bind, bind, read, mark_dirty.
  destruct (parent _); [apply IH|by intros [= <- _]].
Qed.

Lemma write_target_returns fuel self k v st o st' :
  write_target fuel self k v st = Some (o, st') → o = Return tt.
Proof.
  unfold write_target, mbind, M_bind, bind, read, call_set, mark_dirty.
  destruct (find _ _) as [W|]; [apply dirty_parents_returns|by intros [= <- _]].
Qed.

Lemma setattr_assigned fuel k v : ∀ self st o st',
  __setattr__ fuel self k v st = Some (o, st') → assigned k v st st'.
Proof.
  destruct (startswith_underscore k) eqn:Hname.
  - intros self st o st'. rewrite setattr_underscore by done.
    unfold object_setattr. intros [= <- <-]. split; [done|]. split.
    + intros a. apply kept_refl.
    + exists [ObjectSetattr k v]. split; [done|]. constructor; [|done]. by right.
  - induction self as [n sk|n sk p IH] using config_parent_ind;
      intros st o st'; rewrite setattr_unfold by done;
      destruct (write_target _ _ _ _ _) as [[[[]|e] st1]|] eqn:Hw; try done;
      try (by apply write_target_returns in Hw);
      apply write_target_assigned in Hw;
      (destruct (find _ _) as [src|];
       [destruct (call_set_assigned src k v st1) as (st2 & -> & Ha);
        intros [= <- <-]; eauto using assigned_trans|]);
      cbn [_parent]; destruct (_cascade _).
    + by intros [= <- <-].
    + by intros [= <- <-].
    + intros Hp. apply IH in Hp. eauto using assigned_trans.
    + by intros [= <- <-].
Qed.

(** X7: however an attribute assignment ends, also with an error, it
    creates no object, changes no source's class, identifier, parent,
    writable flag or subsections, clears no dirty flag, and the only calls
    it makes are [set] with the name and value assigned (or
    [object.__setattr__] for a name with a leading underscore); [save] is
    never called. *)
Theorem assignment_keeps_sources fuel self k v st o st' :
  __setattr__ fuel self k v st = Some (o, st') → assigned k v st st'.
Proof. apply setattr_assigned. Qed.



(** X10: [LayeredConfig.set] always returns and leaves nothing to write
    back: a [write] after it, from any scope, saves the sources that a
    [write] before it would have saved. *)
Theorem set_is_not_written_back conf key v sourceid st :
  ∃ st1, LayeredConfig_set conf key v sourceid st = Some (Return tt, st1)
    ∧ ∀ conf',
        LayeredConfig_write conf' st1
        = Some (Return tt,
                {| heap := heap st1; next := next st1;
                   calls := calls st1 ++
                            map CallSave (to_save st (_sources (root_of conf'))) |}).
Proof.
  destruct (set_matching_spec (_sources conf) key v sourceid st)
    as (st1 & Hrun & _ & _ & Hheap).
  exists st1. split; [done|]. intros conf'.
  unfold LayeredConfig_write. rewrite save_dirty_spec.
  assert (to_save st1 (_sources (root_of conf'))
          = to_save st (_sources (root_of conf'))) as ->; [|done].
  unfold to_save. apply filter_ext. intros a. rewrite Hheap.
  rewrite iter_with_data_dirty. f_equal.
  generalize (count_occ Nat.eq_dec (identified st sourceid (_sources conf)) a).
  intros n. induction n as [|n IH]; [done|]. exact IH.
Qed.

(** X11: a scope without sources, with nothing to delegate to, holds no
    key: every lookup of a key raises [AttributeError], and so does every
    assignment, which leaves the state as it was. *)
Theorem blank_scope fuel h self k v st :
  _sources self = [] →
  _cascade self = false ∨ _parent self = None →
  startswith_underscore k = false →
  assoc k (_subsections self) = None →
  __getattribute__ fuel h self k = Some (Raise (no_such_key k))
  ∧ __setattr__ fuel self k v st = Some (Raise (no_such_key k), st).
Proof.
  intros Hsrcs Hstop Hname Hsub. split.
  - destruct self as [n sk p]. cbn [__getattribute__].
    rewrite Hname, Hsub, Hsrcs. cbn.
    destruct Hstop as [->|Hp]; [done|]. simpl in Hp. subst p.
    by destruct (_cascade _).
  - rewrite setattr_unfold by done.
    unfold write_target, mbind, M_bind, bind, read. rewrite Hsrcs. cbn.
    destruct Hstop as [->|Hp]; [done|]. rewrite Hp. by destruct (_cascade _).
Qed.

Lemma bounded_kept fuel h h' src :
  (∀ a, kept (h a) (h' a)) → bounded fuel h src → bounded fuel h' src.
Proof.
  intros Hkept (anc & Hanc & Hlen). exists anc. split; [|done].
  eapply ancestors_ext; [|exact Hanc]. intros a.
  by destruct (Hkept a) as (_ & _ & ? & _).
Qed.

Lemma lookup_ends fuel h k : ∀ self,
  Forall (fun c => Forall (bounded fuel h) (_sources c))
    (self :: scopes_above self) →
  ∃ o, __getattribute__ fuel h self k = Some o.
Proof.
  assert (∀ self,
    Forall (bounded fuel h) (_sources self) →
    (_cascade self = true → ∀ p, _parent self = Some p →
       ∃ o, __getattribute__ fuel h p k = Some o) →
    ∃ o, __getattribute__ fuel h self k = Some o) as Hstep.
  { intros [n sk p] Hb Hup. cbn [__getattribute__].
    destruct (startswith_underscore k); [by eexists|].
    destruct (assoc k _); [by eexists|].
    destruct (value_source_bounded fuel h (_cascade (Config n sk p))
                (rev (_sources (Config n sk p))) k (Forall_rev Hb))
      as ([src|] & -> & _); [by eexists|].
    destruct (_cascade _) eqn:Hc; [|by eexists].
    destruct p as [p|]; [|by eexists]. by apply Hup. }
  induction self as [n sk|n sk p IH] using config_parent_ind;
    cbn [scopes_above _parent]; intros Hb;
    apply Forall_cons in Hb as [Hb Hbp]; apply Hstep; try done.
  intros _ p' [= <-]. by apply IH.
Qed.

Lemma assignment_ends fuel k v : ∀ self st,
  Forall (fun c => Forall (bounded fuel (heap st)) (_sources c))
    (self :: scopes_above self) →
  ∃ o st', __setattr__ fuel self k v st = Some (o, st').
Proof.
  destruct (startswith_underscore k) eqn:Hname.
  { intros self st _. rewrite setattr_underscore by done. by do 2 eexists. }
  induction self as [n sk|n sk p IH] using config_parent_ind;
    cbn [scopes_above _parent]; intros st Hb;
    apply Forall_cons in Hb as [Hb Hbp]; rewrite setattr_unfold by done.
  - assert (∃ st1, write_target fuel (Config n sk None) k v st
                   = Some (Return tt, st1)) as (st1 & ->).
    { pose proof (find_rev_inv (fun src => writable (heap st src))
                    (_sources (Config n sk None))) as Hfind.
      destruct (find _ _) as [W|] eqn:HW.
      - destruct Hfind as (lower & higher & Hsrcs & HWw & Hhigher).
        assert (bounded fuel (heap st) W) as (anc & Hanc & Hlen).
        { rewrite Forall_forall in Hb. apply Hb. rewrite Hsrcs.
          apply elem_of_app. right. apply elem_of_cons. by left. }
        destruct (write_target_some fuel (Config n sk None) k v st W anc)
          as (st1 & Hrun & _); [|done|done|by eexists].
        by exists lower, higher.
      - eexists. by apply write_target_none. }
    destruct (find _ _); [by do 2 eexists|].
    cbn [_parent]. destruct (_cascade _); by do 2 eexists.
  - assert (∃ st1, write_target fuel (Config n sk (Some p)) k v st
                   = Some (Return tt, st1)) as (st1 & Hw).
    { pose proof (find_rev_inv (fun src => writable (heap st src))
                    (_sources (Config n sk (Some p)))) as Hfind.
      destruct (find _ _) as [W|] eqn:HW.
      - destruct Hfind as (lower & higher & Hsrcs & HWw & Hhigher).
        assert (bounded fuel (heap st) W) as (anc & Hanc & Hlen).
        { rewrite Forall_forall in Hb. apply Hb. rewrite Hsrcs.
          apply elem_of_app. right. apply elem_of_cons. by left. }
        destruct (write_target_some fuel (Config n sk (Some p)) k v st W anc)
          as (st1 & Hrun & _); [|done|done|by eexists].
        by exists lower, higher.
      - eexists. by apply write_target_none. }
    rewrite Hw. apply write_target_assigned in Hw as (_ & Hkept & _).
    destruct (find _ _); [by do 2 eexists|].
    cbn [_parent]. destruct (_cascade _); [|by do 2 eexists].
    apply IH. eapply Forall_impl; [exact Hbp|]. intros c Hc. cbn in Hc.
    eapply Forall_impl; [exact Hc|]. intros src. by apply bounded_kept.
Qed.

(** X16: the loops along [.parent] end.  When the parent chain of every
    source of the scope and of the scopes above it is finite, shorter than
    the fuel, a lookup and an assignment both come to an end, with a result
    or with an error. *)
Theorem lookup_and_assignment_end fuel self k v st :
  Forall (fun c => Forall (bounded fuel (heap st)) (_sources c))
    (self :: scopes_above self) →
  (∃ o, __getattribute__ fuel (heap st) self k = Some o)
  ∧ (∃ o st', __setattr__ fuel self k v st = Some (o, st')).
Proof.
  intros Hb. split; [by apply lookup_ends|by apply assignment_ends].
Qed.

End MoreAssignment.

Section MoreConstruction.

Context {V K D : Type} `{!ConfigSource V K D}.

Implicit Types (h : store K D) (st : state V K D).

(** X12: however the constructor ends, also with an error, it makes no
    call on the sources and leaves every object that existed as it was: it
    only creates objects. *)
Theorem construction_only_creates fuel cascade writable sources st r st' :
  __init__ fuel cascade writable sources st = Some (r, st') → extends st st'.
Proof. apply init_extends. Qed.

Lemma find_names_nil h srcs :
  Forall (fun src => names_of h src = []) srcs → find_names h srcs [] = [].
Proof.
  induction 1 as [|src srcs Hsrc _ IH]; [done|].
  cbn [find_names]. unfold names_of in Hsrc.
  destruct (subs (h src)); [|done]. by rewrite Hsrc.
Qed.

(** X13: when no source has a subsection, be it that [subsections()]
    yields nothing or that the source does not support it, and also when
    there is no source at all, the constructor returns a scope without
    subsections and creates nothing. *)
Theorem construction_without_subsections fuel cascade writable sources st :
  Forall (fun src => names_of (heap st) src = []) sources →
  __init__ (S fuel) cascade writable sources st
  = Some (Return (Node sources [] cascade writable), st).
Proof.
  intros Hnone. cbn. unfold mbind, M_bind, bind, read.
  by rewrite find_names_nil.
Qed.

Lemma matching_length cascade k srcs : ∀ st s st',
  matching cascade k srcs st = Some (Return s, st') → length s = length srcs.
Proof.
  induction srcs as [|src srcs IH]; intros st s st' Hrun.
  - cbn in Hrun. by injection Hrun as <- <-.
  - cbn in Hrun. unfold mbind, M_bind, bind at 1, read at 1 in Hrun.
    destruct (subs (heap st src)) as [l|]; [|done].
    unfold bind at 1 in Hrun.
    destruct (match assoc k l with Some sub => ret sub | None => placeholder cascade src end st)
      as [[[sub|e] st1]|]; try done.
    unfold bind, ret in Hrun.
    destruct (matching cascade k srcs st1) as [[[s0|e] st2]|] eqn:Hrest; try done.
    injection Hrun as <- <-. cbn. f_equal. by eapply IH.
Qed.

Lemma build_subsections_uniform fuel cascade writable sources n :
  length sources = n →
  (∀ s st t st', __init__ fuel cascade writable s st = Some (Return t, st') →
                 uniform cascade writable (length s) t) →
  ∀ names st subsections st',
    build_subsections (__init__ fuel cascade writable) cascade sources names st
      = Some (Return subsections, st') →
    map fst subsections = names
    ∧ Forall (fun kc => uniform cascade writable n (snd kc)) subsections.
Proof.
  intros Hn Hbuild. induction names as [|k names IH]; intros st subsections st' Hrun.
  - cbn in Hrun. by injection Hrun as <- <-.
  - cbn in Hrun. unfold mbind, M_bind, bind at 1 in Hrun.
    destruct (matching cascade k sources st) as [[[s|e] st1]|] eqn:Hm; try done.
    apply matching_length in Hm.
    unfold bind at 1 in Hrun.
    destruct (__init__ fuel cascade writable s st1) as [[[c|e] st2]|] eqn:Hb; try done.
    apply Hbuild in Hb.
    unfold bind, ret in Hrun.
    destruct (build_subsections _ _ _ _ st2) as [[[rest|e] st3]|] eqn:Hr; try done.
    injection Hrun as <- <-. destruct (IH _ _ _ Hr) as [Hnames Hrest].
    split; [cbn; by rewrite Hnames|]. constructor; [|done].
    cbn. by rewrite <- Hn, <- Hm.
Qed.

Lemma init_uniform fuel cascade writable : ∀ sources st t st',
  __init__ fuel cascade writable sources st = Some (Return t, st') →
  uniform cascade writable (length sources) t.
Proof.
  induction fuel as [|fuel IH]; intros sources st t st' Hrun; [done|].
  cbn in Hrun. unfold mbind, M_bind, bind, read, ret in Hrun.
  destruct (build_subsections _ _ _ _ _) as [[[subsections|e] st1]|] eqn:Hb;
    try done.
  injection Hrun as <- <-.
  destruct (build_subsections_uniform fuel cascade writable sources
              (length sources) eq_refl IH _ _ _ _ Hb) as [Hnames Hall].
  constructor; [done| |done].
  rewrite Hnames. apply find_names_NoDup. constructor.
Qed.

(** X14: in a tree that the constructor returns, every scope has the
    [cascade] and [writable] flags given, as many sources as the root, and
    no subsection name twice. *)
Theorem construction_is_uniform fuel cascade writable sources st t st' :
  __init__ fuel cascade writable sources st = Some (Return t, st') →
  uniform cascade writable (length sources) t.
Proof. apply init_uniform. Qed.

End MoreConstruction.

(** ** The properties on concrete scopes *)

Section Witnesses.

Import DictSource Scenes.

Lemma dict_set_stores : set_stores (V:=value) (D:=dict).
Proof.
  intros d k v. cbn. apply bool_decide_eq_true. rewrite lookup_insert_eq. eauto.
Qed.

(** C1, amended, on the docstring example: all three sources have
    [parameter]; the command line, last in the list, gives the value. *)
Lemma priority_ordering_witness :
  value_source 1 (heap docstring) (_cascade docstring_conf)
    (rev (_sources docstring_conf)) "parameter" = Some (Some 2)
  ∧ __getattribute__ 1 (heap docstring) docstring_conf "parameter"
    = Some (Return (Value (resolved (heap docstring) docstring_conf 2 "parameter"))).
Proof.
  apply (priority_ordering 0 (heap docstring) docstring_conf "parameter" [0; 1] 2).
  - reflexivity.
  - reflexivity.
  - reflexivity.
  - repeat constructor.
Defined.

(** C1 as stated fails on a file that has both a key and a section named
    [mail]: the only source reports [has("mail")], and the lookup returns
    the child scope, not a value from the source. *)
Lemma priority_ordering_counterexample :
  _sources shadowing_conf = [0]
  ∧ Forall (fun src => has (data (heap shadowing src)) "mail" = true)
      (_sources shadowing_conf)
  ∧ __getattribute__ 1 (heap shadowing) shadowing_conf "mail"
    = Some (Return (Subsection
                      (Config shadowing_mail (Some "mail") (Some shadowing_conf)))).
Proof. split; [reflexivity|]. split; [repeat constructor|reflexivity]. Qed.

Example docstring_parameter :
  __getattribute__ 1 (heap docstring) docstring_conf "parameter"
  = Some (Return (Value (Str "baz"))).
Proof. vm_compute. reflexivity. Qed.

Example docstring_other :
  __getattribute__ 1 (heap docstring) docstring_conf "other"
  = Some (Return (Value (Str "default"))).
Proof. vm_compute. reflexivity. Qed.

(** A subsection name yields the child scope, whose [_parent] is the scope
    it was asked of; [write] started from the child reaches that root. *)
Example nested_defaults_subsection :
  __getattribute__ 1 (heap nested_defaults) nested_defaults_root "mail"
  = Some (Return (Subsection nested_defaults_mail))
  ∧ root_of nested_defaults_mail = nested_defaults_root.
Proof. split; reflexivity. Qed.

(** The example of section 8, "Subsection union": the scope gets the
    subsections [a], [b], [c] in this order; the child [a] pairs S1's own
    [a] with a placeholder for S2, and the child [c] a placeholder for S1
    with S2's own [c]. *)
Example union_construction :
  match __init__ 2 false true [0; 1] union with
  | Some (Return t, st') =>
      t = Node [0; 1]
            [("a", Node [2; 6] [] false true);
             ("b", Node [3; 4] [] false true);
             ("c", Node [7; 5] [] false true)]
            false true
      ∧ heap st' 6 = construct INIFile (Some 1) "inifile" true false
      ∧ heap st' 7 = construct Defaults (Some 0) "defaults" false false
  | _ => False
  end.
Proof. vm_compute. repeat split; reflexivity. Qed.

Example typed_default_k :
  __getattribute__ 1 (heap typed_default) typed_default_conf "k"
  = Some (Return (Value (Int 7))).
Proof. vm_compute. reflexivity. Qed.

(** C2 on the example of section 8: the defaults type [k], the command
    line holds its raw value. *)
Lemma typed_value_recovery_witness :
  __getattribute__ 1 (heap typed_default) typed_default_conf "k"
  = Some (Return (Value (typevalue (data (heap typed_default 0)) "k"
                           (get (data (heap typed_default 1)) "k")))).
Proof.
  apply (typed_value_recovery 1 (heap typed_default) typed_default_conf "k" 1).
  - repeat split.
  - reflexivity.
  - exists [], [1]. repeat split. repeat constructor.
Defined.

(** C3, amended: [home] is not on the source of the scope [mail]; with
    [cascade] the root scope answers, without it the lookup fails. *)
Lemma cascade_fallback_witness :
  __getattribute__ 1 (heap nested_defaults) nested_defaults_mail "home"
  = __getattribute__ 1 (heap nested_defaults) nested_defaults_root "home"
  ∧ __getattribute__ 1 (heap nested_defaults)
      (with_cascade false nested_defaults_mail) "home"
    = Some (Raise (no_such_key "home")).
Proof.
  destruct (cascade_fallback 1 (heap nested_defaults) nested_defaults_mail
              nested_defaults_root "home") as [Hup Hfail].
  - reflexivity.
  - reflexivity.
  - reflexivity.
  - constructor; [|constructor]. exists []. split; [|split].
    + apply ancestors_nil. reflexivity.
    + simpl. lia.
    + repeat constructor.
  - split; [apply Hup; reflexivity|exact Hfail].
Defined.

(** C3 as stated fails on the scope [mail] of [nested_sections]: the scope
    has [cascade] and a parent scope, [spam] is on no local source, the
    parent scope resolves [spam] to a value, and the lookup on [mail]
    returns the subsection [spam] of [mail] instead. *)
Lemma cascade_fallback_counterexample :
  _cascade nested_sections_mail = true
  ∧ _parent nested_sections_mail = Some nested_sections_root
  ∧ Forall (absent 1 (heap nested_sections) "spam") (_sources nested_sections_mail)
  ∧ __getattribute__ 1 (heap nested_sections) nested_sections_root "spam"
    = Some (Return (Value (Str "eggs")))
  ∧ __getattribute__ 1 (heap nested_sections) nested_sections_mail "spam"
    = Some (Return (Subsection
                      (Config nested_sections_spam (Some "spam")
                         (Some nested_sections_mail)))).
Proof.
  split; [reflexivity|]. split; [reflexivity|]. split; [|split].
  - constructor; [|constructor]. exists []. split; [|split].
    + apply ancestors_nil. reflexivity.
    + simpl. lia.
    + repeat constructor.
  - vm_compute. reflexivity.
  - reflexivity.
Qed.

Example nested_defaults_home :
  __getattribute__ 1 (heap nested_defaults) nested_defaults_mail "home"
  = Some (Return (Value (Str "/tmp"))).
Proof. vm_compute. reflexivity. Qed.

(** C5, amended, on the docstring example: assigning to [parameter]
    reaches the file (the write target) and the command line (which has
    the key and ranks above the file). *)
Lemma write_targeting_split_witness :
  ∃ st', __setattr__ 1 docstring_conf "parameter" (Str "changed") docstring
         = Some (Return tt, st')
    ∧ calls st' = calls docstring ++
        [CallSet 1 "parameter" (Str "changed"); CallSet 2 "parameter" (Str "changed")]
    ∧ (∀ a, dirty (heap st' a) =
            if decide (a ∈ [1]) then true else dirty (heap docstring a))
    ∧ (∀ a, data (heap st' a) =
            if decide (a = 1 ∨ a = 2)
            then set "parameter" (Str "changed") (data (heap docstring a))
            else data (heap docstring a)).
Proof.
  apply (write_targeting_split 1 docstring_conf "parameter" (Str "changed")
           docstring [0] 1 [] 2 [] []).
  - reflexivity.
  - reflexivity.
  - reflexivity.
  - repeat constructor.
  - reflexivity.
  - constructor.
  - apply ancestors_nil. reflexivity.
  - simpl. lia.
Defined.

(** C5 as stated fails on the docstring example: for [other] the write
    target is the file (1) and the source that has the key is the defaults
    (0), below the file; [set] is called twice on the file and never on the
    defaults, whose value stays. *)
Lemma write_targeting_split_counterexample :
  highest (fun src => writable (heap docstring src)) (_sources docstring_conf) 1
  ∧ highest (has_or_typed (heap docstring) "other") (_sources docstring_conf) 0
  ∧ returns_with
      (__setattr__ 1 docstring_conf "other" (Str "also changed") docstring)
      (fun st' =>
         calls st' = [CallSet 1 "other" (Str "also changed");
                      CallSet 1 "other" (Str "also changed")]
         ∧ get (data (heap st' 0)) "other" = Str "default").
Proof.
  split; [|split].
  - exists [0], [2]. repeat split. repeat constructor.
  - exists [], [1; 2]. repeat split. repeat constructor.
  - vm_compute. split; reflexivity.
Qed.

(** C6, amended, on the docstring example: [newkey] is on no source; the
    file takes it and no error is raised. *)
Lemma new_key_is_accepted_witness :
  ∃ st', __setattr__ 1 docstring_conf "newkey" (Str "x") docstring
         = Some (Return tt, st')
    ∧ calls st' = calls docstring ++
        [CallSet 1 "newkey" (Str "x"); CallSet 1 "newkey" (Str "x")]
    ∧ (∀ a, dirty (heap st' a) =
            if decide (a ∈ [1]) then true else dirty (heap docstring a))
    ∧ (∀ a, data (heap st' a) =
            if decide (a = 1)
            then set "newkey" (Str "x") (set "newkey" (Str "x") (data (heap docstring a)))
            else data (heap docstring a)).
Proof.
  apply (new_key_is_accepted 1 docstring_conf "newkey" (Str "x") docstring
           [0] 1 [2] []).
  - exact dict_set_stores.
  - reflexivity.
  - reflexivity.
  - reflexivity.
  - reflexivity.
  - repeat constructor.
  - repeat constructor.
  - apply ancestors_nil. reflexivity.
  - simpl. lia.
Defined.

(** C6 as stated fails on the docstring example: the scope has no
    [cascade], a writable source, and no source that has [newkey] or its
    type, and the assignment returns instead of raising. *)
Lemma new_key_is_accepted_counterexample :
  _cascade docstring_conf = false
  ∧ highest (fun src => writable (heap docstring src)) (_sources docstring_conf) 1
  ∧ Forall (fun src => has_or_typed (heap docstring) "newkey" src = false)
      (_sources docstring_conf)
  ∧ returns_with
      (__setattr__ 1 docstring_conf "newkey" (Str "x") docstring)
      (fun st' =>
         calls st' = [CallSet 1 "newkey" (Str "x"); CallSet 1 "newkey" (Str "x")]).
Proof.
  split; [reflexivity|]. split; [|split].
  - exists [0], [2]. repeat split. repeat constructor.
  - repeat constructor.
  - vm_compute. reflexivity.
Qed.

(** C7, amended, on read-only sources: an unknown key raises and leaves the
    sources as they were; a known key is set on the source that has it. *)
Lemma no_writable_source_witness :
  __setattr__ 1 read_only_conf "missing" (Str "x") docstring
  = Some (Raise (no_such_key "missing"), docstring)
  ∧ __setattr__ 1 read_only_conf "other" (Str "x") docstring
    = call_set 0 "other" (Str "x") docstring.
Proof.
  destruct (no_writable_source 1 read_only_conf "missing" (Str "x") docstring)
    as [Hraise _].
  - reflexivity.
  - repeat constructor.
  - left. reflexivity.
  - destruct (no_writable_source 1 read_only_conf "other" (Str "x") docstring)
      as [_ Hset].
    + reflexivity.
    + repeat constructor.
    + left. reflexivity.
    + split.
      * apply Hraise. repeat constructor.
      * apply Hset. exists [], [2]. repeat split. repeat constructor.
Defined.

(** C7 as stated fails on read-only sources: no source is writable, the
    scope has neither [cascade] nor a parent, and assigning to [other]
    succeeds silently. *)
Lemma no_writable_source_counterexample :
  Forall (fun src => writable (heap docstring src) = false)
    (_sources read_only_conf)
  ∧ _cascade read_only_conf = false ∧ _parent read_only_conf = None
  ∧ returns_with
      (__setattr__ 1 read_only_conf "other" (Str "x") docstring)
      (fun st' =>
         calls st' = [CallSet 0 "other" (Str "x")]
         ∧ get (data (heap st' 0)) "other" = Str "x"
         ∧ dirty (heap st' 0) = false).
Proof.
  split; [repeat constructor|]. split; [reflexivity|]. split; [reflexivity|].
  vm_compute. repeat split; reflexivity.
Qed.

(** C9, amended: the read-only scope [mail] hands an unknown key over to
    the root scope; the writable scope [mail] keeps it. *)
Lemma delegation_to_parent_witness :
  __setattr__ 2 nested_defaults_mail "newkey" (Str "x") nested_defaults
  = __setattr__ 2 nested_defaults_root "newkey" (Str "x") nested_defaults
  ∧ ∃ st', __setattr__ 2 nested_file_mail "newkey" (Str "x") nested_file
           = Some (Return tt, st')
      ∧ calls st' = calls nested_file ++
          [CallSet 1 "newkey" (Str "x"); CallSet 1 "newkey" (Str "x")]
      ∧ (∀ a, dirty (heap st' a) =
              if decide (a ∈ [1; 0]) then true else dirty (heap nested_file a))
      ∧ (∀ a, data (heap st' a) =
              if decide (a = 1)
              then set "newkey" (Str "x")
                     (set "newkey" (Str "x") (data (heap nested_file a)))
              else data (heap nested_file a)).
Proof.
  split.
  - apply (delegation_to_parent 2 nested_defaults_mail nested_defaults_root
             "newkey" (Str "x") nested_defaults).
    + reflexivity.
    + reflexivity.
    + reflexivity.
    + repeat constructor.
    + repeat constructor.
  - apply (proj2 (delegation_to_parent 2 nested_file_mail nested_file_root
                    "newkey" (Str "x") nested_file
                    eq_refl eq_refl eq_refl ltac:(repeat constructor))
             [] 1 [] [0]).
    + exact dict_set_stores.
    + reflexivity.
    + reflexivity.
    + constructor.
    + apply ancestors_cons; [reflexivity|]. apply ancestors_nil. reflexivity.
    + simpl. lia.
Defined.

(** C9 as stated fails on the writable scope [mail]: the scope has
    [cascade] and a parent scope, no local source has [newkey] or its type,
    and the assignment stays local: [set] is called twice on the source of
    [mail] and never on the source of the root scope. *)
Lemma delegation_to_parent_counterexample :
  _cascade nested_file_mail = true
  ∧ _parent nested_file_mail = Some nested_file_root
  ∧ Forall (fun src => has_or_typed (heap nested_file) "newkey" src = false)
      (_sources nested_file_mail)
  ∧ highest (fun src => writable (heap nested_file src))
      (_sources nested_file_root) 0
  ∧ returns_with
      (__setattr__ 2 nested_file_mail "newkey" (Str "x") nested_file)
      (fun st' =>
         calls st' = [CallSet 1 "newkey" (Str "x"); CallSet 1 "newkey" (Str "x")]
         ∧ has (data (heap st' 0)) "newkey" = false).
Proof.
  split; [reflexivity|]. split; [reflexivity|]. split; [repeat constructor|].
  split.
  - exists [], []. repeat split. constructor.
  - vm_compute. split; reflexivity.
Qed.

(** [write] on concrete scopes.  Nothing is dirty at first, and nothing is
    saved; once the section scope has taken a new port, [write] started
    from the section saves the file object of the root scope, marked dirty
    as the parent of the section's object, and never the section's own
    object. *)
Example write_nothing_dirty :
  returns_with (LayeredConfig_write docstring_conf docstring)
    (fun st' => calls st' = []).
Proof. vm_compute. reflexivity. Qed.

Example write_after_assignment :
  returns_with (__setattr__ 2 nested_file_mail "port" (Str "26") nested_file)
    (fun st1 =>
       returns_with (LayeredConfig_write nested_file_mail st1)
         (fun st2 =>
            calls st2 = [CallSet 1 "port" (Str "26"); CallSet 1 "port" (Str "26");
                         CallSave 0])).
Proof. vm_compute. reflexivity. Qed.

(** [LayeredConfig.set] on the docstring example: the defaults take the
    value and stay clean; an identifier that no source has changes
    nothing. *)
Example set_on_defaults :
  returns_with (LayeredConfig_set docstring_conf "other" (Str "new") "defaults" docstring)
    (fun st' =>
       calls st' = [CallSet 0 "other" (Str "new")]
       ∧ get (data (heap st' 0)) "other" = Str "new"
       ∧ dirty (heap st' 0) = false).
Proof. vm_compute. repeat split; reflexivity. Qed.

Example set_on_unknown_source :
  LayeredConfig_set docstring_conf "other" (Str "new") "registry" docstring
  = Some (Return tt, docstring).
Proof. reflexivity. Qed.

(** C4 fails on these sources: the defaults have the subsection [a], the
    command line does not support [subsections()], and the constructor
    raises [AttributeError]. *)
Lemma construction_unsupported_subsections_witness :
  ∃ st', __init__ 1 false true [0; 1] unsupported
         = Some (Raise (AttributeError "subsections"), st').
Proof.
  apply (construction_unsupported_subsections 0 false true [0; 1] unsupported).
  - apply Exists_cons_tl, Exists_cons_hd. reflexivity.
  - apply Exists_cons_hd. discriminate.
  - repeat constructor.
Defined.

Import DictKeys.

Lemma dict_keys_listed : keys_listed (V:=value) (D:=dict).
Proof.
  intros d k Hk. unfold keys, dict_keys in Hk.
  apply list_elem_of_fmap in Hk as ([k' v] & -> & Hin).
  apply elem_of_map_to_list in Hin. cbn.
  apply bool_decide_eq_true. by eexists.
Qed.


Local Ltac cannot_end_otherwise E :=
  exfalso;
  apply (f_equal (fun r => match r with
                           | Some (Return _, _) => true
                           | _ => false
                           end)) in E;
  vm_compute in E; discriminate E.

Local Ltac cannot_run_out E :=
  exfalso;
  apply (f_equal (fun r => match r with Some _ => true | None => false end)) in E;
  vm_compute in E; discriminate E.

(** X1 on the docstring example: only the defaults, lowest in priority,
    have [other]. *)
Lemma highest_source_wins_witness :
  __getattribute__ 1 (heap docstring) docstring_conf "other"
  = Some (Return (Value (resolved (heap docstring) docstring_conf 0 "other"))).
Proof.
  apply (highest_source_wins 0 (heap docstring) docstring_conf "other" 0).
  - reflexivity.
  - reflexivity.
  - reflexivity.
  - exists [], [1; 2]. split; [reflexivity|]. split; [reflexivity|].
    repeat constructor.
Defined.



(** The subsection of the nested defaults yields its own key, then the key
    of the root. *)
Example nested_defaults_iter :
  __iter__ (heap nested_defaults) nested_defaults_mail = ["port"; "home"]
  ∧ __iter__ (heap nested_defaults) nested_defaults_root = ["home"].
Proof. split; vm_compute; reflexivity. Qed.

(** The docstring example yields [parameter] once, though all three sources
    list it. *)
Example docstring_iter :
  __iter__ (heap docstring) docstring_conf ≡ₚ ["parameter"; "other"].
Proof.
  assert (__iter__ (heap docstring) docstring_conf = ["other"; "parameter"]
          ∨ __iter__ (heap docstring) docstring_conf = ["parameter"; "other"])
    as [->| ->]; [vm_compute; tauto|apply Permutation_swap|done].
Qed.

(** X6 on the nested defaults: [home] is yielded by the subsection and is
    found from there. *)
Lemma iter_keys_resolve_witness :
  ∃ r, __getattribute__ 2 (heap nested_defaults) nested_defaults_mail "home"
       = Some (Return r).
Proof.
  apply (iter_keys_resolve 2 (heap nested_defaults) nested_defaults_mail "home").
  - exact dict_keys_listed.
  - reflexivity.
  - repeat (apply Forall_cons; split;
            [repeat (apply Forall_cons; split;
                     [exists []; split; [apply ancestors_nil; reflexivity|simpl; lia]|]);
             apply Forall_nil_2|]).
    apply Forall_nil_2.
  - repeat constructor.
  - apply list_elem_of_In. vm_compute. tauto.
Defined.

(** X7 on the file with a section. *)
Lemma assignment_keeps_sources_witness :
  match __setattr__ 2 nested_file_mail "port" (Str "26") nested_file with
  | Some (_, st') => assigned "port" (Str "26") nested_file st'
  | None => False
  end.
Proof.
  destruct (__setattr__ 2 nested_file_mail "port" (Str "26") nested_file)
    as [[o st']|] eqn:E.
  - exact (assignment_keeps_sources 2 nested_file_mail "port" (Str "26")
             nested_file o st' E).
  - cannot_run_out E.
Defined.



(** X11 beside the docstring example: a scope built from no source. *)
Lemma blank_scope_witness :
  __getattribute__ 1 (heap docstring) (root (Node [] [] false true)) "parameter"
  = Some (Raise (no_such_key "parameter"))
  ∧ __setattr__ 1 (root (Node [] [] false true)) "parameter" (Str "x") docstring
    = Some (Raise (no_such_key "parameter"), docstring).
Proof.
  apply (blank_scope 1 (heap docstring) (root (Node [] [] false true))
           "parameter" (Str "x") docstring).
  - reflexivity.
  - left. reflexivity.
  - reflexivity.
  - reflexivity.
Defined.

(** X16 on the file with a section. *)
Lemma lookup_and_assignment_end_witness :
  (∃ o, __getattribute__ 2 (heap nested_file) nested_file_mail "port" = Some o)
  ∧ (∃ o st', __setattr__ 2 nested_file_mail "port" (Str "26") nested_file
              = Some (o, st')).
Proof.
  apply (lookup_and_assignment_end 2 nested_file_mail "port" (Str "26") nested_file).
  apply Forall_cons. split.
  - apply Forall_cons. split; [|apply Forall_nil_2].
    exists [0]. split; [|simpl; lia].
    apply ancestors_cons with (p := 0); [reflexivity|].
    apply ancestors_nil. reflexivity.
  - apply Forall_cons. split; [|apply Forall_nil_2].
    apply Forall_cons. split; [|apply Forall_nil_2].
    exists []. split; [apply ancestors_nil; reflexivity|simpl; lia].
Defined.

(** X12 on the subsection union. *)
Lemma construction_only_creates_witness :
  match __init__ 2 false true [0; 1] union with
  | Some (_, st') => extends union st'
  | None => False
  end.
Proof.
  destruct (__init__ 2 false true [0; 1] union) as [[r st']|] eqn:E.
  - exact (construction_only_creates 2 false true [0; 1] union r st' E).
  - cannot_run_out E.
Defined.

(** X13 on a command line without [subsections()] and defaults without
    subsections. *)
Lemma construction_without_subsections_witness :
  __init__ 1 false true [1; 2] unsupported
  = Some (Return (Node [1; 2] [] false true), unsupported).
Proof.
  apply (construction_without_subsections 0 false true [1; 2] unsupported).
  repeat constructor.
Defined.

(** X14 on the subsection union. *)
Lemma construction_is_uniform_witness :
  match __init__ 2 false true [0; 1] union with
  | Some (Return t, _) => uniform false true 2 t
  | _ => False
  end.
Proof.
  destruct (__init__ 2 false true [0; 1] union) as [[[t|e] st']|] eqn:E.
  - exact (construction_is_uniform 2 false true [0; 1] union t st' E).
  - cannot_end_otherwise E.
  - cannot_end_otherwise E.
Defined.

(** X15 on the subsection union. *)
Lemma construction_builds_witness :
  match __init__ 2 false true [0; 1] union with
  | Some (Return t, st') =>
      ∃ subsections,
        t = Node [0; 1] subsections false true
        ∧ map fst subsections
          = first_seen (concat (map (names_of (heap union)) [0; 1]))
        ∧ Forall (fun '(k, child) =>
                    ∃ s below, child = Node s below false true
                               ∧ Forall2 (placed union st' false k) [0; 1] s)
            subsections
  | _ => False
  end.
Proof.
  destruct (__init__ 2 false true [0; 1] union) as [[[t|e] st']|] eqn:E.
  - apply (construction_builds 2 false true [0; 1] union t st' E).
    repeat constructor.
  - cannot_end_otherwise E.
  - cannot_end_otherwise E.
Defined.

End Witnesses.
